(** * Area Graph (js/index.js): stacking, scales, nearest-point search
      and the curve bisection, as a shallow embedding.

JavaScript numbers are modelled as the rationals [Q], without [NaN] and
[Infinity].  Arithmetic is exact, except where its rounding is written
out: the bisection is given a second time with the rounding of each of
its operations as a parameter ([findClosestPointVerticallyOn]), and
[binary64] is the rounding of JavaScript's doubles.  A JavaScript
[TypeError] (reading a property of [undefined], [reduce] of an empty
array) is the [None] of an [option]. *)

From Stdlib Require Import String.
From Stdlib Require Import QArith Qabs Qround Qpower ZArith List Bool Lia Lqa.
From Stdlib Require Import Sorting.Sorted.
Import ListNotations.
Local Open Scope Q_scope.

(** ** Numbers *)

(** [a < b] on numbers, as a boolean. *)
Definition Qlt_bool (a b : Q) : bool := negb (Qle_bool b a).

(** The exponent of the binade of a positive number: the integer [e] with
    [2 ^ e <= a < 2 ^ (e + 1)]. *)
Definition floorLog2 (a : Q) : Z :=
  let e := (Z.log2 (Qnum a) - Z.log2 (Zpos (Qden a)))%Z in
  if Qle_bool (2 ^ e) a then e else (e - 1)%Z.

(** The integer nearest to a number that is not negative and, of two
    integers at the same distance, the even one. *)
Definition roundHalfEven (m : Q) : Z :=
  let a := Qnum m in
  let b := Zpos (Qden m) in
  let f := (a / b)%Z in
  let r2 := (2 * (a mod b))%Z in
  if (r2 <? b)%Z then f
  else if (b <? r2)%Z then (f + 1)%Z
  else if Z.even f then f else (f + 1)%Z.

(** The rounding of IEEE 754 binary64 arithmetic, which is that of
    JavaScript numbers: the double nearest to [q] and, of two doubles at
    the same distance, the one whose significand is even.  A double has a
    significand of 53 bits, and below [2 ^ (-1022)] the doubles are the
    multiples of [2 ^ (-1074)].  Overflow to [Infinity] is left out: the
    numbers rounded in this file are far below [2 ^ 1024]. *)
Definition binary64 (q : Q) : Q :=
  if Qeq_bool q 0 then 0
  else
    let a := Qabs q in
    let e := Z.max (floorLog2 a) (-1022) in
    let ulp := 2 ^ (e - 52) in
    let v := Qred (inject_Z (roundHalfEven (a / ulp)) * ulp) in
    if Qle_bool 0 q then v else - v.

(** ** Data *)

(** A "px" or a "point" of the conventions: [{x: <xValue>, y: <yValue>}]. *)
Module Coords.
Record t : Type := mk { x : Q; y : Q }.
End Coords.

(** An entry of [data.areaMeta]: [''] or [{ classNames: '...' }]. *)
Inductive AreaMeta : Type :=
| NoMeta
| ClassNames (classNames : string).

(** A point of the stack: the two-element array [[d0, d1]] that [d3.stack]
    creates, with the [coords] and [meta] properties that [updateStack]
    attaches to it.  [meta] is [None] when [areaMeta[areaIndex]] is
    [undefined]. *)
Record StackPoint : Type := mkStackPoint {
  d0 : Q;
  d1 : Q;
  coords : Coords.t;
  meta : option AreaMeta
}.

Definition Area : Type := list StackPoint.
Definition Stack : Type := list Area.

(** ** The parts of d3 the module calls

    d3 is a library outside the repository; these definitions follow the
    library's own code (d3-array, d3-shape and d3-scale, releases 4 and 5). *)
Module D3.

(** [d3.min(values, valueof)]: the least defined value, [None] for
    [undefined]. *)
Definition min {A : Type} (values : list A) (valueof : A -> option Q) : option Q :=
  fold_left (fun m a =>
               match valueof a, m with
               | None, _ => m
               | Some v, None => Some v
               | Some v, Some m' => if Qlt_bool v m' then Some v else m
               end) values None.

(** [d3.max(values, valueof)]. *)
Definition max {A : Type} (values : list A) (valueof : A -> option Q) : option Q :=
  fold_left (fun m a =>
               match valueof a, m with
               | None, _ => m
               | Some v, None => Some v
               | Some v, Some m' => if Qlt_bool m' v then Some v else m
               end) values None.

(** [d3.range(n)]: [0, 1, ..., n-1]. *)
Definition range (n : nat) : list nat := seq 0 n.

(** The shortest row length, [d3.min(matrix, length)] on a non-empty
    matrix. *)
Fixpoint minLength (row : list Q) (rows : list (list Q)) : nat :=
  match rows with
  | [] => length row
  | r :: rows' => Nat.min (length row) (minLength r rows')
  end.

(** [d3.transpose(matrix)]: [[]] for the empty matrix, otherwise
    [transpose[i][j] = matrix[j][i]] for [i] below the shortest row
    length. *)
Definition transpose (matrix : list (list Q)) : list (list Q) :=
  match matrix with
  | [] => []
  | row :: rows =>
      map (fun i => map (fun r => nth i r 0) matrix) (seq 0 (minLength row rows))
  end.

(** [d3.stackOffsetNone]: from the second series on, the lower value of a
    point becomes the upper value of the point below it, and is added to
    its own upper value
    ([s1[j][1] += s1[j][0] = s0[j][1]]; the upper value below is never
    [NaN] here). *)
Fixpoint offsetNoneFrom (s0 : list (Q * Q)) (series : list (list (Q * Q)))
  : list (list (Q * Q)) :=
  match series with
  | [] => []
  | s1 :: rest =>
      let s1' := map (fun p => (snd (fst p), snd (snd p) + snd (fst p))) (combine s0 s1) in
      s1' :: offsetNoneFrom s1' rest
  end.

Definition stackOffsetNone (series : list (list (Q * Q))) : list (list (Q * Q)) :=
  match series with
  | [] => []
  | s0 :: rest => s0 :: offsetNoneFrom s0 rest
  end.

(** [d3.stack().keys(keys).offset(d3.stackOffsetNone)(data)]: series [k]
    starts as [[0, d[k]]] for every row [d] of [data]; the default order
    is the order of the keys. *)
Definition stack (keys : list nat) (data : list (list Q)) : list (list (Q * Q)) :=
  stackOffsetNone (map (fun k => map (fun d => (0, nth k d 0)) data) keys).

(** [interpolateNumber(a, b)]. *)
Definition interpolateNumber (a b : Q) (t : Q) : Q := a + (b - a) * t.

(** A continuous linear scale, [d3.scaleLinear().domain(d).range(r)]. *)
Module scaleLinear.
Record t : Type := mk { domain : Q * Q; range : Q * Q }.

Section Continuous.
(** The value d3 gives to the normalisation of a degenerate interval
    [[a, a]]: [0] in d3-scale 1.x (d3 4), [0.5] from d3-scale 2.2 on. *)
Variable degenerate : Q.

(** [deinterpolateLinear(a, b)] ([normalize(a, b)] in later releases). *)
Definition deinterpolateLinear (a b : Q) (x : Q) : Q :=
  if Qeq_bool (b - a) 0 then degenerate else (x - a) / (b - a).

(** [bimap(domain, range, deinterpolate, reinterpolate)]. *)
Definition bimap (domain range : Q * Q) (x : Q) : Q :=
  let '(d0, d1) := domain in
  let '(r0, r1) := range in
  if Qlt_bool d1 d0
  then interpolateNumber r1 r0 (deinterpolateLinear d1 d0 x)
  else interpolateNumber r0 r1 (deinterpolateLinear d0 d1 x).

(** [scale(x)]. *)
Definition apply (s : t) (x : Q) : Q := bimap (domain s) (range s) x.

(** [scale.invert(y)]. *)
Definition invert (s : t) (y : Q) : Q := bimap (range s) (domain s) y.
End Continuous.
End scaleLinear.

(** [d3.selectAll(nodes).remove()] on the live [childNodes] of an element:
    what it leaves of the children.  [d3.selectAll] keeps the array-like it
    is given as the group of the selection, and [selection.each] reads the
    length of the group once and then visits [group[0]], [group[1]], ...
    Removing a child moves every later child one place down in the live
    list, so the walk removes the children at the places 0, 2, 4, ... of
    the initial list, and the children at the places 1, 3, 5, ... stay. *)
Fixpoint remove {A : Type} (nodes : list A) : list A :=
  match nodes with
  | _ :: kept :: rest => kept :: remove rest
  | _ => []
  end.

End D3.

(** ** Generic functions used by Area Graph *)

(** Returns the maximum value in the given area. *)
Definition stackMax (area : Area) : option Q :=
  D3.max area (fun d => Some (d1 d)).

(** Returns the minimum value in the given area. *)
Definition stackMin (area : Area) : option Q :=
  D3.min area (fun d => Some (d0 d)).

(** [Array.prototype.reduce] without an initial value: the first element
    starts the accumulator; a [TypeError] on the empty array. *)
Definition reduce {A : Type} (callback : A -> A -> A) (array : list A) : option A :=
  match array with
  | [] => None
  | first :: rest => Some (fold_left callback rest first)
  end.

(** [Array.prototype.reduceRight] without an initial value. *)
Definition reduceRight {A : Type} (callback : A -> A -> A) (array : list A) : option A :=
  reduce callback (rev array).

Definition closerLeft (referencePointX : Q) (accumulator currentValue : StackPoint)
  : StackPoint :=
  let closestXValue := Coords.x (coords currentValue) in
  if Qlt_bool closestXValue referencePointX
     && Qle_bool (Coords.x (coords accumulator)) closestXValue
  then currentValue else accumulator.

(** Get closest x value in dataset left of/smaller than reference point. *)
Definition findClosestPointLeft (data : Area) (referencePointX : Q) : option StackPoint :=
  reduce (closerLeft referencePointX) data.

Definition closerRight (referencePointX : Q) (accumulator currentValue : StackPoint)
  : StackPoint :=
  let closestXValue := Coords.x (coords currentValue) in
  if Qle_bool referencePointX closestXValue
     && Qle_bool closestXValue (Coords.x (coords accumulator))
  then currentValue else accumulator.

(** Get closest x value in dataset right of/bigger than reference point. *)
Definition findClosestPointRight (data : Area) (referencePointX : Q) : option StackPoint :=
  reduceRight (closerRight referencePointX) data.

(** The fixed precision of the bisection. *)
Definition precision : Q := 1 # 2.

(** Determine point where curve intersects with vertical line.

    [fuel] bounds the depth of the recursion (the call stack); the result
    carries, next to the returned point, the positions at which [pointFunc]
    was called, in call order. *)
Fixpoint findClosestPointVerticallyR (fuel : nat) (left right xValue : Q)
  (pointFunc : Q -> Coords.t) : option (Coords.t * list Q) :=
  match fuel with
  | O => None
  | S fuel' =>
      let split := (left + right) / 2 in
      let curvePoint := pointFunc split in
      let distance := Qabs (right - left) in
      if Qle_bool distance precision then Some (curvePoint, [split])
      else
        let next :=
          if Qle_bool (Coords.x curvePoint) xValue
          then findClosestPointVerticallyR fuel' split right xValue pointFunc
          else findClosestPointVerticallyR fuel' left split xValue pointFunc in
        match next with
        | None => None
        | Some (point, calls) => Some (point, split :: calls)
        end
  end.

Definition findClosestPointVertically (fuel : nat) (left right xValue : Q)
  (pointFunc : Q -> Coords.t) : option Coords.t :=
  option_map fst (findClosestPointVerticallyR fuel left right xValue pointFunc).

(** The same function with the rounding of its arithmetic written out:
    [round] gives the number that an operation stores for its exact
    result, [binary64] for JavaScript.  The function makes three
    operations on numbers, the sum of the ends, its half and the
    difference of the ends; [Math.abs] and the comparisons are exact.
    With the identity as [round] it is [findClosestPointVerticallyR]. *)
Fixpoint findClosestPointVerticallyOn (round : Q -> Q) (fuel : nat)
  (left right xValue : Q) (pointFunc : Q -> Coords.t) : option (Coords.t * list Q) :=
  match fuel with
  | O => None
  | S fuel' =>
      let split := round (round (left + right) / 2) in
      let curvePoint := pointFunc split in
      let distance := Qabs (round (right - left)) in
      if Qle_bool distance precision then Some (curvePoint, [split])
      else
        let next :=
          if Qle_bool (Coords.x curvePoint) xValue
          then findClosestPointVerticallyOn round fuel' split right xValue pointFunc
          else findClosestPointVerticallyOn round fuel' left split xValue pointFunc in
        match next with
        | None => None
        | Some (point, calls) => Some (point, split :: calls)
        end
  end.

(** ** The AreaGraph class *)

(** [x <- e ;; k]: [e] may throw. *)
Notation "x <- e ;; k" := (match e with Some x => k | None => None end)
  (at level 61, e at next level, right associativity).

(** [array.map(callback)] with a callback that receives the index and may
    throw. *)
Fixpoint mapFrom {A B : Type} (index : nat) (callback : A -> nat -> option B)
  (array : list A) : option (list B) :=
  match array with
  | [] => Some []
  | a :: rest =>
      b <- callback a index ;;
      bs <- mapFrom (S index) callback rest ;;
      Some (b :: bs)
  end.

Definition mapArray {A B : Type} (callback : A -> nat -> option B) (array : list A)
  : option (list B) :=
  mapFrom 0 callback array.

(** [config.data], and the partial object given to [update]: a property
    that is absent is [None]. *)
Record Data : Type := mkData {
  areas : option (list (list Q));
  areaMeta : option (list AreaMeta)
}.

(** [_extends({}, target, source)] ([Object.assign]) on the two properties
    the class reads: those of [source] win. *)
Definition _extends (target source : Data) : Data :=
  {| areas := match areas source with Some a => Some a | None => areas target end;
     areaMeta := match areaMeta source with Some m => Some m | None => areaMeta target end |}.

(** A group [g.layer.layer__<name>] and the data bound to its [path]
    children, one path per datum. *)
Record Layer : Type := mkLayer { layerName : string; paths : list Area }.

(** An [svg] element: its layers. *)
Definition Svg : Type := list Layer.

(** [config.container], with its live size. *)
Record Container : Type := mkContainer {
  clientWidth : Q;
  clientHeight : Q;
  childNodes : list Svg
}.

(** What a callback given to [window.requestAnimationFrame] does. *)
Inductive Frame : Type :=
| Redraw    (* handleResize: clear(); render() *)
| Rebuild.  (* update: clear(); stack = updateStack(); render() *)

(** An instance, with the callbacks it has scheduled and that have not run. *)
Record AreaGraph : Type := mkAreaGraph {
  container : Container;
  data : Data;
  stack : Stack;
  animationFrames : list Frame
}.

Definition areaCount (this : AreaGraph) : option nat :=
  a <- areas (data this) ;; Some (length a).

Definition xAxisSectionCount (this : AreaGraph) : option Q :=
  a <- areas (data this) ;;
  first <- nth_error a 0 ;;
  Some (inject_Z (Z.of_nat (length first)) - 1).

(** Constructs scale along x-axis. *)
Definition xScale (this : AreaGraph) : option D3.scaleLinear.t :=
  let width := clientWidth (container this) in
  sectionCount <- xAxisSectionCount this ;;
  Some (D3.scaleLinear.mk (0, sectionCount) (0, width)).

(** Constructs scale along y-axis (the transpiled method).  [None] when
    the stack has no point: the bounds of the domain are [undefined]
    then. *)
Definition yScale (this : AreaGraph) : option D3.scaleLinear.t :=
  let height := clientHeight (container this) in
  lo <- D3.min (stack this) stackMin ;;
  hi <- D3.max (stack this) stackMax ;;
  Some (D3.scaleLinear.mk (lo, hi) (height, 5)).

(** The same method in the ES2015 source that follows the transpiled code
    in the file. *)
Definition yScaleES (this : AreaGraph) : option D3.scaleLinear.t :=
  let height := clientHeight (container this) in
  lo <- D3.min (stack this) stackMin ;;
  hi <- D3.max (stack this) stackMax ;;
  Some (D3.scaleLinear.mk (lo, hi) (height, 0)).

(** Removes the children of the container with
    [d3.selectAll(container.childNodes).remove()]. *)
Definition clear (this : AreaGraph) : AreaGraph :=
  {| container := {| clientWidth := clientWidth (container this);
                     clientHeight := clientHeight (container this);
                     childNodes := D3.remove (childNodes (container this)) |};
     data := data this;
     stack := stack this;
     animationFrames := animationFrames this |}.

(** How a method ends: it returns, or it throws; either way the instance
    is as the method has left it. *)
Inductive Completion : Type :=
| Returns (this : AreaGraph)
| Throws (this : AreaGraph).

Definition outcome (completion : Completion) : AreaGraph :=
  match completion with
  | Returns this => this
  | Throws this => this
  end.

(** [d3.select(container).append('svg')] with the given layers. *)
Definition appendChart (chart : Svg) (this : AreaGraph) : AreaGraph :=
  {| container := {| clientWidth := clientWidth (container this);
                     clientHeight := clientHeight (container this);
                     childNodes := childNodes (container this) ++ [chart] |};
     data := data this;
     stack := stack this;
     animationFrames := animationFrames this |}.

(** Some series of the stack has a point: the generators of [curveArea]
    and [curveAreaBorder] call [xScale()] once for every point of the
    datum they draw. *)
Definition hasPoint (fullStack : Stack) : bool :=
  existsb (fun area => match area with [] => false | _ :: _ => true end) fullStack.

(** Render graph with multiple layers: a new [svg] with the layer of the
    areas and the layer of their borders, each with one path per entry of
    the stack.  The paths of a layer are appended before their [d]
    attribute is computed, so that a throw of [xScale()] leaves the layer
    of the areas with its paths, and no layer of borders. *)
Definition render (this : AreaGraph) : Completion :=
  let layerAreas := mkLayer "areas" (stack this) in
  let layerBorders := mkLayer "borders" (stack this) in
  if hasPoint (stack this)
  then match xScale this with
       | Some _ => Returns (appendChart [layerAreas; layerBorders] this)
       | None => Throws (appendChart [layerAreas] this)
       end
  else Returns (appendChart [layerAreas; layerBorders] this).

Definition requestAnimationFrame (callback : Frame) (this : AreaGraph) : AreaGraph :=
  {| container := container this;
     data := data this;
     stack := stack this;
     animationFrames := animationFrames this ++ [callback] |}.

Definition handleResize (this : AreaGraph) : AreaGraph :=
  requestAnimationFrame Redraw this.

(** An instance as the constructor sets it up before [init], in an empty
    container of the given size. *)
Definition newGraph (width height : Q) (configData : Data) : AreaGraph :=
  {| container := mkContainer width height [];
     data := configData;
     stack := [];
     animationFrames := [] |}.

Section WithD3.
Variable degenerate : Q.

(** [updateStack()]: the stack of the series, every point with its
    baseline, its top, the coordinates at which it is drawn and the
    metadata of its series.  The x-coordinate is computed on exact
    numbers here; the doubles of the code carry the rounding of the
    division, of the product and of the inverted scale, so that in a
    container 100 wide with 7 sections the point of the section 1 caches
    1.0000000000000002. *)
Definition updateStack (this : AreaGraph) : option Stack :=
  count <- areaCount this ;;
  matrix <- areas (data this) ;;
  let transposedStack := D3.stack (D3.range count) (D3.transpose matrix) in
  mapArray (fun arrays areaIndex =>
    let chartWidth := clientWidth (container this) in
    mapArray (fun currentValue index =>
      sectionCount <- xAxisSectionCount this ;;
      scale <- xScale this ;;
      metas <- areaMeta (data this) ;;
      let xPosition :=
        if Nat.eqb index 0 then 0
        else chartWidth / sectionCount * inject_Z (Z.of_nat index) in
      Some {| d0 := fst currentValue;
              d1 := snd currentValue;
              coords := Coords.mk (D3.scaleLinear.invert degenerate scale xPosition)
                                  (snd currentValue);
              meta := nth_error metas areaIndex |}) arrays) transposedStack.

Definition setStack (fullStack : Stack) (this : AreaGraph) : AreaGraph :=
  {| container := container this;
     data := data this;
     stack := fullStack;
     animationFrames := animationFrames this |}.

Definition init (this : AreaGraph) : option AreaGraph :=
  fullStack <- updateStack this ;;
  match render (setStack fullStack this) with
  | Returns rendered => Some rendered
  | Throws _ => None
  end.

(** [new AreaGraph(config)] on an empty container of the given size. *)
Definition construct (width height : Q) (configData : Data) : option AreaGraph :=
  init (newGraph width height configData).

(** Update graph with new data: the merge is immediate, the rebuild is
    scheduled. *)
Definition update (newData : Data) (this : AreaGraph) : AreaGraph :=
  requestAnimationFrame Rebuild
    {| container := container this;
       data := _extends (data this) newData;
       stack := stack this;
       animationFrames := animationFrames this |}.

(** Runs one scheduled callback. *)
Definition runFrame (callback : Frame) (this : AreaGraph) : Completion :=
  match callback with
  | Redraw => render (clear this)
  | Rebuild =>
      let cleared := clear this in
      match updateStack cleared with
      | Some fullStack => render (setStack fullStack cleared)
      | None => Throws cleared
      end
  end.

(** The next animation frame: every scheduled callback runs, in order; a
    callback that throws is left where it has thrown, and the next one
    runs. *)
Definition animationFrame (this : AreaGraph) : AreaGraph :=
  fold_left (fun graph callback => outcome (runFrame callback graph))
    (animationFrames this)
    {| container := container this;
       data := data this;
       stack := stack this;
       animationFrames := [] |}.


End WithD3.


(** ** Further methods of the class *)

(** The class names that [renderArea(d, i)] adds to the path of the datum
    [d] at the position [i] of its layer:
    [d[i] && d[i].meta && d[i].meta.classNames || '']. *)
Definition renderArea (d : Area) (i : nat) : string :=
  match nth_error d i with
  | Some point =>
      match meta point with
      | Some (ClassNames classNames) => classNames
      | Some NoMeta => ""
      | None => ""
      end
  | None => ""
  end.

(** ** Vocabulary of the properties *)

(** The x-coordinate a point caches. *)
Definition px (p : StackPoint) : Q := Coords.x (coords p).

(** Ascending by [coords.x]. *)
Definition ascending (data : Area) : Prop := Sorted (fun p q => px p <= px q) data.

(** A point that carries nothing but its x-coordinate. *)
Definition pointAt (xValue : Q) : StackPoint :=
  mkStackPoint 0 0 (Coords.mk xValue 0) None.

(** Both searches fold the same way: the current value replaces the
    accumulator when it qualifies and is not before the accumulator in the
    direction of the fold. *)
Definition pick (qualifies : StackPoint -> bool)
  (notBefore : StackPoint -> StackPoint -> bool)
  (accumulator currentValue : StackPoint) : StackPoint :=
  if qualifies currentValue && notBefore accumulator currentValue
  then currentValue else accumulator.

(** The interval the bisection recurses into. *)
Definition narrow (left right xValue : Q) (pointFunc : Q -> Coords.t) : Q * Q :=
  let split := (left + right) / 2 in
  if Qle_bool (Coords.x (pointFunc split)) xValue then (split, right) else (left, split).


(** The arithmetic of the bisection is exact on [[left, right]]: the
    midpoint and the width are computed without rounding, on the interval
    and on the halves that the bisection may go on with, down to the
    intervals whose width is within the precision, which are reached
    after [n] halvings at most. *)
Fixpoint exactBisection (round : Q -> Q) (n : nat) (left right : Q) : bool :=
  let split := round (round (left + right) / 2) in
  Qeq_bool split ((left + right) / 2)
  && Qeq_bool (round (right - left)) (right - left)
  && (Qle_bool (Qabs (right - left)) precision
      || match n with
         | O => false
         | S n' => exactBisection round n' split right && exactBisection round n' left split
         end).

(** What holds of a run of the bisection on [[left, right]] that returns
    [point] after the evaluations [calls]. *)
Definition bisects (xValue : Q) (pointFunc : Q -> Coords.t) (left right : Q)
  (point : Coords.t) (calls : list Q) : Prop :=
  point = pointFunc (last calls 0) /\
  (forall k, (length calls <= S k)%nat <->
             Qabs (right - left) <= 2 ^ Z.of_nat k * precision) /\
  (left <= right ->
   Forall (fun position => left <= position <= right) calls /\
   ((forall s, left <= s <= right -> xValue < Coords.x (pointFunc s)) ->
    last calls 0 - left <= 1 # 4) /\
   ((forall s, left <= s <= right -> Coords.x (pointFunc s) <= xValue) ->
    right - last calls 0 <= 1 # 4)).

(** The x-coordinate of the curve is strictly increasing, or strictly
    decreasing, with the position on the curve, between two positions. *)
Definition increasingOn (first last : Q) (pointFunc : Q -> Coords.t) : Prop :=
  forall a b, first <= a -> a < b -> b <= last ->
              Coords.x (pointFunc a) < Coords.x (pointFunc b).

Definition decreasingOn (first last : Q) (pointFunc : Q -> Coords.t) : Prop :=
  forall a b, first <= a -> a < b -> b <= last ->
              Coords.x (pointFunc b) < Coords.x (pointFunc a).

Definition monotonicOn (first last : Q) (pointFunc : Q -> Coords.t) : Prop :=
  increasingOn first last pointFunc \/ decreasingOn first last pointFunc.

(** The run of the bisection on [[left, right]], inside [[first, last]],
    ends within the precision of the intersection that the interval
    holds. *)
Definition brackets (first last intersection left right : Q) (point : Coords.t)
  (calls : list Q) : Prop :=
  first <= left -> right <= last ->
  left <= intersection <= right ->
  Qabs (List.last calls 0 - intersection) <= precision.

(** The sum, at the section [index], of the values of the given series. *)
Fixpoint sumAt (index : nat) (series : list (list Q)) : Q :=
  match series with
  | [] => 0
  | s :: rest => nth index s 0 + sumAt index rest
  end.

(** Every series has the given length. *)
Definition equalLength (length' : nat) (series : list (list Q)) : Prop :=
  Forall (fun s => length s = length') series.

(** The point of the series [areaIndex] at the section [index]. *)
Definition stackPointAt (fullStack : Stack) (areaIndex index : nat) : option StackPoint :=
  area <- nth_error fullStack areaIndex ;; nth_error area index.

(** What [updateStack] copies from the point [[lower, upper]] of
    [d3.stack] into the point of the series [areaIndex]. *)
Definition annotates (metas : list AreaMeta) (raw : Q * Q) (areaIndex : nat)
  (p : StackPoint) : Prop :=
  d0 p = fst raw /\ d1 p = snd raw /\ Coords.y (coords p) = snd raw /\
  meta p = nth_error metas areaIndex.

(** The numeric values of a stack: the baseline and the top of each
    point. *)
Definition numbers (fullStack : Stack) : list (list (Q * Q)) :=
  map (map (fun p => (d0 p, d1 p))) fullStack.

(** The stack of the instance has the numeric values of the stack that
    [updateStack] builds from the data of the instance: no change of the
    data is still waiting for its rebuild. *)
Definition current (degenerate : Q) (this : AreaGraph) : Prop :=
  exists built, updateStack degenerate this = Some built /\
                numbers built = numbers (stack this).

(** [d3.min] and [d3.max] fold the same way: a defined value replaces the
    extreme value so far when it is better. *)
Definition extreme {A : Type} (better : Q -> Q -> bool) (valueof : A -> option Q)
  (m : option Q) (a : A) : option Q :=
  match valueof a, m with
  | None, _ => m
  | Some v, None => Some v
  | Some v, Some m' => if better v m' then Some v else m
  end.

(** The data of the spec's stacking example. *)
Definition exampleData : Data :=
  mkData (Some [[1; 2]; [3; 4]]) (Some [NoMeta; ClassNames "area--blue-light"]).

(** The graph that the constructor builds from it in a container 100 wide
    and 50 high. *)
Definition exampleGraph : AreaGraph :=
  Eval vm_compute in
    match construct 0 100 50 exampleData with
    | Some graph => graph
    | None => newGraph 100 50 exampleData
    end.

(** The point that [updateStack] makes of the point [raw] of [d3.stack],
    for the series [areaIndex] and the section [index], in a container of
    the given width and with the given section count. *)
Definition builtPoint (degenerate chartWidth sectionCount : Q) (metas : list AreaMeta)
  (raw : Q * Q) (areaIndex index : nat) : StackPoint :=
  {| d0 := fst raw;
     d1 := snd raw;
     coords :=
       Coords.mk
         (D3.scaleLinear.invert degenerate
            (D3.scaleLinear.mk (0, sectionCount) (0, chartWidth))
            (if Nat.eqb index 0 then 0
             else chartWidth / sectionCount * inject_Z (Z.of_nat index)))
         (snd raw);
     meta := nth_error metas areaIndex |}.

(** The class names of an entry of [areaMeta], [''] when it has none. *)
Definition classNamesOf (entry : option AreaMeta) : string :=
  match entry with
  | Some (ClassNames classNames) => classNames
  | _ => ""
  end.

(** Every value of every series is at least 0. *)
Definition nonNegative (matrix : list (list Q)) : Prop :=
  Forall (Forall (fun v => 0 <= v)) matrix.

(** * Properties *)

(** ** Nearest-neighbour search *)

Lemma Qlt_bool_iff (a b : Q) : Qlt_bool a b = true <-> a < b.
Proof.
  unfold Qlt_bool. rewrite negb_true_iff. split.
  - intros H. apply Qnot_le_lt. intros Hle.
    apply Qle_bool_iff in Hle. congruence.
  - intros H. destruct (Qle_bool b a) eqn:E; [|reflexivity].
    apply Qle_bool_iff in E. apply Qlt_not_le in H. contradiction.
Qed.

Lemma Qlt_bool_false_iff (a b : Q) : Qlt_bool a b = false <-> b <= a.
Proof.
  unfold Qlt_bool. rewrite negb_false_iff. apply Qle_bool_iff.
Qed.

Section FoldNearest.
Variable qualifies : StackPoint -> bool.
Variable notBefore : StackPoint -> StackPoint -> bool.
Variable before : StackPoint -> StackPoint -> Prop.
Hypothesis before_refl : forall p, before p p.
Hypothesis before_trans : forall p q r, before p q -> before q r -> before p r.
Hypothesis notBefore_spec : forall acc cur, notBefore acc cur = true <-> before acc cur.

Lemma fold_pick_none (rest : list StackPoint) (first : StackPoint) :
  Forall (fun q => qualifies q = false) rest ->
  fold_left (pick qualifies notBefore) rest first = first.
Proof.
  induction 1 as [|q rest Hq _ IH]; simpl; [reflexivity|].
  unfold pick at 2. rewrite Hq. simpl. exact IH.
Qed.

Lemma fold_pick_sorted (rest : list StackPoint) :
  forall first,
    StronglySorted before (first :: rest) ->
    qualifies first = true ->
    let r := fold_left (pick qualifies notBefore) rest first in
    In r (first :: rest) /\ qualifies r = true /\
    forall q, In q (first :: rest) -> qualifies q = true -> before q r.
Proof.
  induction rest as [|b rest IH]; intros first Hs Hfirst; cbv zeta; cbn [fold_left].
  - split; [now left|]. split; [assumption|].
    intros q [<-|[]] _. apply before_refl.
  - inversion Hs as [|? ? Hrest Hall]; subst.
    inversion Hall as [|? ? Hab Hall']; subst.
    assert (Hp : pick qualifies notBefore first b = if qualifies b then b else first).
    { unfold pick. now rewrite (proj2 (notBefore_spec first b) Hab), andb_true_r. }
    rewrite Hp.
    destruct (qualifies b) eqn:Hb.
    + destruct (IH b Hrest Hb) as (Hin & Hok & Hmax).
      split; [now right|]. split; [assumption|].
      intros q [<-|Hq] Hqual.
      * apply before_trans with b; [assumption|].
        apply Hmax; [now left | assumption].
      * now apply Hmax.
    + assert (Hs' : StronglySorted before (first :: rest)).
      { constructor; [|assumption]. now inversion Hrest. }
      destruct (IH first Hs' Hfirst) as (Hin & Hok & Hmax).
      split; [destruct Hin as [<-|Hin]; [now left | now right; right]|].
      split; [assumption|].
      intros q [<-|[<-|Hq]] Hqual.
      * apply Hmax; [now left | assumption].
      * congruence.
      * apply Hmax; [now right | assumption].
Qed.
End FoldNearest.

Lemma closerLeft_pick (referencePointX : Q) :
  closerLeft referencePointX =
  pick (fun p => Qlt_bool (px p) referencePointX)
       (fun acc cur => Qle_bool (px acc) (px cur)).
Proof. reflexivity. Qed.

Lemma closerRight_pick (referencePointX : Q) :
  closerRight referencePointX =
  pick (fun p => Qle_bool referencePointX (px p))
       (fun acc cur => Qle_bool (px cur) (px acc)).
Proof. reflexivity. Qed.

Lemma ascending_strongly (data : Area) :
  ascending data -> StronglySorted (fun p q => px p <= px q) data.
Proof.
  apply Sorted_StronglySorted. intros p q r. apply Qle_trans.
Qed.

Lemma StronglySorted_snoc {A : Type} (R : A -> A -> Prop) (l : list A) (a : A) :
  StronglySorted R l -> Forall (fun q => R q a) l -> StronglySorted R (l ++ [a]).
Proof.
  induction 1 as [|b l Hl IH Hb]; intros Hall; simpl.
  - constructor; constructor.
  - inversion Hall; subst. constructor.
    + now apply IH.
    + apply Forall_app. split; [assumption | now constructor].
Qed.

Lemma StronglySorted_rev {A : Type} (R : A -> A -> Prop) (l : list A) :
  StronglySorted R l -> StronglySorted (fun a b => R b a) (rev l).
Proof.
  induction 1 as [|a l Hl IH Ha]; simpl; [constructor|].
  apply StronglySorted_snoc; [assumption|].
  apply Forall_rev. exact Ha.
Qed.

Lemma findClosestPointLeft_sorted (data : Area) (referencePointX : Q) :
  ascending data ->
  (exists q, In q data /\ px q < referencePointX) ->
  exists p, findClosestPointLeft data referencePointX = Some p /\ In p data /\
            px p < referencePointX /\
            forall q, In q data -> px q < referencePointX -> px q <= px p.
Proof.
  intros Hasc (q0 & Hq0 & Hlt).
  apply ascending_strongly in Hasc.
  destruct data as [|first rest]; [contradiction|].
  assert (Hfirst : px first < referencePointX).
  { destruct Hq0 as [<-|Hin]; [assumption|].
    inversion Hasc as [|? ? _ Hall]; subst.
    rewrite Forall_forall in Hall.
    apply Qle_lt_trans with (px q0); [now apply Hall | assumption]. }
  unfold findClosestPointLeft, reduce. rewrite closerLeft_pick.
  destruct (fold_pick_sorted
              (fun p => Qlt_bool (px p) referencePointX)
              (fun acc cur => Qle_bool (px acc) (px cur))
              (fun p q => px p <= px q)
              (fun p => Qle_refl (px p))
              (fun p q r => @Qle_trans (px p) (px q) (px r))
              (fun acc cur => Qle_bool_iff (px acc) (px cur))
              rest first Hasc (proj2 (Qlt_bool_iff _ _) Hfirst))
    as (Hin & Hok & Hmax).
  eexists. split; [reflexivity|]. split; [exact Hin|].
  split; [now apply Qlt_bool_iff|].
  intros q Hq Hqlt. apply Hmax; [assumption | now apply Qlt_bool_iff].
Qed.

Lemma findClosestPointRight_sorted (data : Area) (referencePointX : Q) :
  ascending data ->
  (exists q, In q data /\ referencePointX <= px q) ->
  exists p, findClosestPointRight data referencePointX = Some p /\ In p data /\
            referencePointX <= px p /\
            forall q, In q data -> referencePointX <= px q -> px p <= px q.
Proof.
  intros Hasc (q0 & Hq0 & Hle).
  apply ascending_strongly, StronglySorted_rev in Hasc.
  unfold findClosestPointRight, reduceRight, reduce.
  apply in_rev in Hq0.
  assert (Hin_rev : forall q, In q (rev data) <-> In q data)
    by (intros q; symmetry; apply in_rev).
  destruct (rev data) as [|last rest]; [contradiction|].
  assert (Hlast : referencePointX <= px last).
  { destruct Hq0 as [<-|Hin]; [assumption|].
    inversion Hasc as [|? ? _ Hall]; subst.
    rewrite Forall_forall in Hall.
    apply Qle_trans with (px q0); [assumption | now apply Hall]. }
  rewrite closerRight_pick.
  destruct (fold_pick_sorted
              (fun p => Qle_bool referencePointX (px p))
              (fun acc cur => Qle_bool (px cur) (px acc))
              (fun p q => px q <= px p)
              (fun p => Qle_refl (px p))
              (fun p q r H1 H2 => @Qle_trans (px r) (px q) (px p) H2 H1)
              (fun acc cur => Qle_bool_iff (px cur) (px acc))
              rest last Hasc (proj2 (Qle_bool_iff _ _) Hlast))
    as (Hin & Hok & Hmin).
  eexists. split; [reflexivity|]. split; [now apply Hin_rev|].
  split; [now apply Qle_bool_iff|].
  intros q Hq Hqle. apply Hmin; [now apply Hin_rev | now apply Qle_bool_iff].
Qed.

(** The points of the spec's example, at x = 0, 1, 2, 3. *)
Lemma ascending_example : ascending (map pointAt [0; 1; 2; 3]).
Proof.
  unfold ascending. repeat constructor; unfold px; simpl; lra.
Qed.

(** C2 (amended): on a sequence of points ascending by [coords.x],
    [findClosestPointLeft] returns a point of the sequence with the largest
    [coords.x] strictly less than the reference whenever some point is
    strictly left of the reference, and [findClosestPointRight] returns a
    point with the smallest [coords.x] greater than or equal to the
    reference whenever some point is at or right of the reference. *)
Theorem findClosestPoint_nearest (data : Area) (referencePointX : Q) :
  ascending data ->
  ((exists q, In q data /\ px q < referencePointX) ->
   exists p, findClosestPointLeft data referencePointX = Some p /\ In p data /\
             px p < referencePointX /\
             forall q, In q data -> px q < referencePointX -> px q <= px p)
  /\
  ((exists q, In q data /\ referencePointX <= px q) ->
   exists p, findClosestPointRight data referencePointX = Some p /\ In p data /\
             referencePointX <= px p /\
             forall q, In q data -> referencePointX <= px q -> px p <= px q).
Proof.
  intros Hasc. split.
  - now apply findClosestPointLeft_sorted.
  - now apply findClosestPointRight_sorted.
Qed.

(** The spec's example for C2: with points at x = 0, 1, 2, 3 and the
    reference 1.5 the theorem applies on both sides; the searches return
    the points at x = 1 and x = 2. *)
Lemma findClosestPoint_nearest_witness :
  ascending (map pointAt [0; 1; 2; 3]) /\
  (exists p, findClosestPointLeft (map pointAt [0; 1; 2; 3]) (3 # 2) = Some p /\
             In p (map pointAt [0; 1; 2; 3]) /\ px p < 3 # 2 /\
             forall q, In q (map pointAt [0; 1; 2; 3]) -> px q < 3 # 2 -> px q <= px p) /\
  (exists p, findClosestPointRight (map pointAt [0; 1; 2; 3]) (3 # 2) = Some p /\
             In p (map pointAt [0; 1; 2; 3]) /\ 3 # 2 <= px p /\
             forall q, In q (map pointAt [0; 1; 2; 3]) -> 3 # 2 <= px q -> px p <= px q).
Proof.
  split; [exact ascending_example|].
  split.
  - apply (proj1 (findClosestPoint_nearest (map pointAt [0; 1; 2; 3]) (3 # 2)
                    ascending_example)).
    exists (pointAt 1). split; [simpl; auto|]. unfold px; simpl; lra.
  - apply (proj2 (findClosestPoint_nearest (map pointAt [0; 1; 2; 3]) (3 # 2)
                    ascending_example)).
    exists (pointAt 2). split; [simpl; auto|]. unfold px; simpl; lra.
Defined.

(** The values of the spec's example, by evaluation. *)
Example findClosestPoint_example :
  findClosestPointLeft (map pointAt [0; 1; 2; 3]) (3 # 2) = Some (pointAt 1) /\
  findClosestPointRight (map pointAt [0; 1; 2; 3]) (3 # 2) = Some (pointAt 2) /\
  findClosestPointRight (map pointAt [0; 1; 2; 3]) 2 = Some (pointAt 2).
Proof. repeat split. Qed.

(** C2 as stated fails when no point is strictly left of the reference:
    with points at x = 0, 1, 2, 3 and the reference -1 the left search
    returns the point at x = 0, which is not left of the reference. *)
Lemma findClosestPointLeft_nothing_left :
  ascending (map pointAt [0; 1; 2; 3]) /\
  map pointAt [0; 1; 2; 3] <> [] /\
  findClosestPointLeft (map pointAt [0; 1; 2; 3]) (-1) = Some (pointAt 0) /\
  ~ (exists p, findClosestPointLeft (map pointAt [0; 1; 2; 3]) (-1) = Some p /\
               px p < -1).
Proof.
  split; [exact ascending_example|].
  split; [discriminate|].
  split; [reflexivity|].
  intros (p & Hp & Hlt).
  change (Some (pointAt 0) = Some p) in Hp.
  injection Hp as <-. unfold px in Hlt; simpl in Hlt. lra.
Qed.

Lemma nth_error_snoc_last {A : Type} (l : list A) (a : A) :
  nth_error (l ++ [a]) (length (l ++ [a]) - 1) = Some a.
Proof.
  rewrite length_app. simpl.
  replace (length l + 1 - 1)%nat with (length l) by lia.
  rewrite nth_error_app2 by lia.
  now rewrite Nat.sub_diag.
Qed.

(** C10: on a non-empty sequence, when every point is at or right of the
    reference [findClosestPointLeft] returns the first point, and when
    every point is strictly left of the reference [findClosestPointRight]
    returns the last point: the folds fall back to a boundary element. *)
Theorem findClosestPoint_fallback (data : Area) (referencePointX : Q) :
  data <> [] ->
  (Forall (fun p => referencePointX <= px p) data ->
   findClosestPointLeft data referencePointX = nth_error data 0 /\
   exists first, nth_error data 0 = Some first /\ ~ px first < referencePointX)
  /\
  (Forall (fun p => px p < referencePointX) data ->
   findClosestPointRight data referencePointX = nth_error data (length data - 1) /\
   exists last, nth_error data (length data - 1) = Some last /\
                ~ referencePointX <= px last).
Proof.
  intros Hne. split; intros Hall.
  - destruct data as [|first rest]; [contradiction|].
    inversion Hall as [|? ? Hfirst Hrest]; subst.
    split.
    + unfold findClosestPointLeft, reduce. rewrite closerLeft_pick.
      rewrite fold_pick_none; [reflexivity|].
      eapply Forall_impl; [|exact Hrest].
      intros q Hq. now apply Qlt_bool_false_iff.
    + exists first. split; [reflexivity|]. now apply Qle_not_lt.
  - assert (Hrev : data = rev (rev data)) by (symmetry; apply rev_involutive).
    apply Forall_rev in Hall.
    unfold findClosestPointRight, reduceRight, reduce.
    destruct (rev data) as [|last rest].
    + simpl in Hrev. contradiction.
    + apply Forall_cons_iff in Hall. destruct Hall as [Hlast Hrest].
      subst data. cbn [rev]. rewrite nth_error_snoc_last.
      split.
      * rewrite closerRight_pick.
        rewrite fold_pick_none; [reflexivity|].
        eapply Forall_impl; [|exact Hrest].
        intros q Hq. apply not_true_is_false. intros Hle.
        apply Qle_bool_iff in Hle. apply Qlt_not_le in Hq. contradiction.
      * exists last. split; [reflexivity|]. now apply Qlt_not_le.
Qed.

(** C10 on the spec's points: the reference 0 has every point at or right
    of it, the reference 4 has every point left of it. *)
Lemma findClosestPoint_fallback_witness :
  (findClosestPointLeft (map pointAt [0; 1; 2; 3]) 0 = Some (pointAt 0)) /\
  (findClosestPointRight (map pointAt [0; 1; 2; 3]) 4 = Some (pointAt 3)).
Proof.
  assert (Hne : map pointAt [0; 1; 2; 3] <> []) by discriminate.
  split.
  - apply (proj1 (findClosestPoint_fallback (map pointAt [0; 1; 2; 3]) 0 Hne)).
    repeat constructor; unfold px; simpl; lra.
  - apply (proj1 (proj2 (findClosestPoint_fallback (map pointAt [0; 1; 2; 3]) 4 Hne)
                   ltac:(repeat constructor; unfold px; simpl; lra))).
Defined.

(** ** Curve-intersection bisection *)

Lemma half_eq (a : Q) : a / 2 == (1 # 2) * a.
Proof. field. Qed.

Lemma Qabs_half (a b : Q) : b == a / 2 -> Qabs b == (1 # 2) * Qabs a.
Proof.
  intros H. rewrite H, half_eq.
  destruct (Qlt_le_dec a 0) as [Hneg|Hpos].
  - rewrite (Qabs_neg a) by lra. rewrite (Qabs_neg ((1 # 2) * a)) by lra. ring.
  - rewrite (Qabs_pos a) by lra. rewrite (Qabs_pos ((1 # 2) * a)) by lra. reflexivity.
Qed.

Lemma narrow_width (left right xValue : Q) (pointFunc : Q -> Coords.t) :
  Qabs (snd (narrow left right xValue pointFunc) - fst (narrow left right xValue pointFunc))
  == (1 # 2) * Qabs (right - left).
Proof.
  unfold narrow.
  destruct (Qle_bool _ xValue); cbn [fst snd]; apply Qabs_half; field.
Qed.
Lemma pow2_succ (n : nat) : 2 ^ Z.of_nat (S n) == 2 * 2 ^ Z.of_nat n.
Proof.
  rewrite Nat2Z.inj_succ. unfold Z.succ.
  rewrite Qpower_plus by (intros H; discriminate H).
  change (2 ^ 1) with (2 * 1). ring.
Qed.
Lemma pow2_ge_1 (n : nat) : 1 <= 2 ^ Z.of_nat n.
Proof.
  induction n as [|n IH].
  - change (2 ^ Z.of_nat 0) with 1. lra.
  - rewrite pow2_succ. lra.
Qed.
Lemma findClosestPointVerticallyR_S (fuel : nat) (left right xValue : Q)
  (pointFunc : Q -> Coords.t) :
  findClosestPointVerticallyR (S fuel) left right xValue pointFunc =
  let split := (left + right) / 2 in
  if Qle_bool (Qabs (right - left)) precision
  then Some (pointFunc split, [split])
  else
    match findClosestPointVerticallyR fuel
            (fst (narrow left right xValue pointFunc))
            (snd (narrow left right xValue pointFunc)) xValue pointFunc with
    | None => None
    | Some (point, calls) => Some (point, split :: calls)
    end.
Proof.
  unfold narrow. cbn [findClosestPointVerticallyR]. cbv zeta.
  destruct (Qle_bool (Qabs (right - left)) precision); [reflexivity|].
  destruct (Qle_bool (Coords.x _) xValue); reflexivity.
Qed.

Lemma findClosestPointVerticallyR_calls (xValue : Q) (pointFunc : Q -> Coords.t)
  (fuel : nat) :
  forall left right point calls,
    findClosestPointVerticallyR fuel left right xValue pointFunc = Some (point, calls) ->
    point = pointFunc (last calls 0) /\
    (1 <= length calls)%nat /\
    (forall n, (length calls <= S n)%nat <->
               Qabs (right - left) <= 2 ^ Z.of_nat n * precision) /\
    (forall fuel', (length calls <= fuel')%nat ->
       findClosestPointVerticallyR fuel' left right xValue pointFunc = Some (point, calls)).
Proof.
  induction fuel as [|fuel IH]; intros left right point calls Hrun; [discriminate|].
  rewrite findClosestPointVerticallyR_S in Hrun. cbv zeta in Hrun.
  destruct (Qle_bool (Qabs (right - left)) precision) eqn:Hstop.
  - injection Hrun as <- <-. apply Qle_bool_iff in Hstop.
    split; [reflexivity|]. split; [cbn [length]; lia|]. split.
    + intros n. cbn [length]. split; [intros _|lia].
      pose proof (pow2_ge_1 n) as Hp. unfold precision in *.
      set (P := 2 ^ Z.of_nat n) in *. lra.
    + intros [|fuel'] Hf; [cbn [length] in Hf; lia|].
      rewrite findClosestPointVerticallyR_S. cbv zeta.
      now rewrite (proj2 (Qle_bool_iff _ _) Hstop).
  - destruct (findClosestPointVerticallyR fuel _ _ xValue pointFunc)
      as [[point' calls']|] eqn:Hrec; [|discriminate].
    injection Hrun as <- <-.
    destruct (IH _ _ _ _ Hrec) as (Hlast & Hlen & Hcount & Hfuel).
    assert (Hwide : precision < Qabs (right - left)).
    { apply Qnot_le_lt. intros Hle. apply Qle_bool_iff in Hle. congruence. }
    split.
    { rewrite Hlast. destruct calls'; [cbn [length] in Hlen; lia | reflexivity]. }
    split; [cbn [length]; lia|]. split.
    + intros [|n].
      * change (2 ^ Z.of_nat 0) with 1. cbn [length]. split; [lia|].
        intros Hle. unfold precision in *. lra.
      * rewrite pow2_succ. cbn [length]. rewrite <- Nat.succ_le_mono.
        rewrite (Hcount n), narrow_width. set (P := 2 ^ Z.of_nat n). unfold precision.
        split; intros H; lra.
    + intros [|fuel'] Hf; [cbn [length] in Hf; lia|].
      rewrite findClosestPointVerticallyR_S. cbv zeta. rewrite Hstop.
      rewrite (Hfuel fuel') by (cbn [length] in Hf; lia). reflexivity.
Qed.

Lemma findClosestPointVerticallyR_runs (xValue : Q) (pointFunc : Q -> Coords.t)
  (n : nat) :
  forall left right,
    Qabs (right - left) <= 2 ^ Z.of_nat n * precision ->
    exists point calls,
      findClosestPointVerticallyR (S n) left right xValue pointFunc = Some (point, calls).
Proof.
  induction n as [|n IH]; intros left right Hwidth;
    rewrite findClosestPointVerticallyR_S; cbv zeta.
  - change (2 ^ Z.of_nat 0) with 1 in Hwidth.
    assert (Hstop : Qabs (right - left) <= precision) by lra.
    apply Qle_bool_iff in Hstop. rewrite Hstop. eauto.
  - destruct (Qle_bool (Qabs (right - left)) precision); [eauto|].
    destruct (IH (fst (narrow left right xValue pointFunc))
                 (snd (narrow left right xValue pointFunc))) as (point & calls & Hrec).
    + rewrite narrow_width. rewrite pow2_succ in Hwidth.
      set (P := 2 ^ Z.of_nat n) in *. unfold precision in *. lra.
    + rewrite Hrec. eauto.
Qed.

Lemma nat_le_pow2 (n : nat) : inject_Z (Z.of_nat n) <= 2 ^ Z.of_nat n.
Proof.
  induction n as [|n IH].
  - change (2 ^ Z.of_nat 0) with 1. change (inject_Z (Z.of_nat 0)) with 0. lra.
  - rewrite pow2_succ, Nat2Z.inj_succ. unfold Z.succ. rewrite inject_Z_plus.
    pose proof (pow2_ge_1 n). change (inject_Z 1) with 1.
    set (P := 2 ^ Z.of_nat n) in *. lra.
Qed.

(** Every width is reached by doubling the precision often enough. *)
Lemma width_bounded (width : Q) : exists n, width <= 2 ^ Z.of_nat n * precision.
Proof.
  exists (Z.to_nat (Qceiling (2 * width))).
  pose proof (Qle_ceiling (2 * width)) as Hceil.
  pose proof (nat_le_pow2 (Z.to_nat (Qceiling (2 * width)))) as Hpow.
  assert (Hz : inject_Z (Qceiling (2 * width))
               <= inject_Z (Z.of_nat (Z.to_nat (Qceiling (2 * width))))).
  { rewrite <- Zle_Qle. lia. }
  set (P := 2 ^ Z.of_nat _) in *. unfold precision. lra.
Qed.

Lemma over_precision (width : Q) : width / precision == 2 * width.
Proof. unfold precision. field. Qed.

(** The bisection returns on every interval, and it makes at most [n + 1]
    evaluations exactly when [n] halvings bring the width of the interval
    within the precision. *)
Lemma bisection_evaluations (left right xValue : Q) (pointFunc : Q -> Coords.t) :
  exists point calls,
    (forall fuel, (length calls <= fuel)%nat ->
       findClosestPointVerticallyR fuel left right xValue pointFunc = Some (point, calls)) /\
    point = pointFunc (last calls 0) /\
    (1 <= length calls)%nat /\
    (forall n, (length calls <= S n)%nat <->
               Qabs (right - left) <= 2 ^ Z.of_nat n * precision).
Proof.
  destruct (width_bounded (Qabs (right - left))) as (n & Hn).
  destruct (findClosestPointVerticallyR_runs xValue pointFunc n left right Hn)
    as (point & calls & Hrun).
  destruct (findClosestPointVerticallyR_calls xValue pointFunc _ _ _ _ _ Hrun)
    as (Hlast & Hlen & Hcount & Hfuel).
  exists point, calls. auto.
Qed.

(** On the interval [0, 100], whatever [pointFunc] and the target are: nine
    evaluations, that is eight recursive steps. *)
Lemma bisection_0_100 (xValue : Q) (pointFunc : Q -> Coords.t) :
  exists point calls,
    findClosestPointVerticallyR 9 0 100 xValue pointFunc = Some (point, calls) /\
    point = pointFunc (last calls 0) /\
    length calls = 9%nat.
Proof.
  destruct (bisection_evaluations 0 100 xValue pointFunc)
    as (point & calls & Hfuel & Hlast & Hlen & Hcount).
  assert (Hwidth : Qabs (100 - 0) == 100) by reflexivity.
  assert (H8 : (length calls <= 9)%nat).
  { apply (Hcount 8%nat). rewrite Hwidth. apply Qle_bool_iff. reflexivity. }
  assert (H7 : ~ (length calls <= 8)%nat).
  { intros H. apply (Hcount 7%nat) in H. rewrite Hwidth in H.
    revert H. apply Qlt_not_le. reflexivity. }
  exists point, calls. split; [apply Hfuel; lia|]. split; [exact Hlast | lia].
Qed.

Lemma last_cons_nonempty {A : Type} (a d : A) (l : list A) :
  (1 <= length l)%nat -> last (a :: l) d = last l d.
Proof. destruct l; [cbn [length]; lia | reflexivity]. Qed.

(** *** The bisection in rounded arithmetic *)

(** With the identity as rounding the function is the one on exact
    numbers. *)
Lemma findClosestPointVerticallyOn_exact (fuel : nat) (xValue : Q)
  (pointFunc : Q -> Coords.t) :
  forall left right,
    findClosestPointVerticallyOn (fun number => number) fuel left right xValue pointFunc
    = findClosestPointVerticallyR fuel left right xValue pointFunc.
Proof.
  induction fuel as [|fuel IH]; intros left right; [reflexivity|].
  cbn [findClosestPointVerticallyOn findClosestPointVerticallyR].
  now rewrite !IH.
Qed.

(** One step of the function and of the test of exactness. *)
Section RoundedBisection.
Variable round : Q -> Q.
Variable xValue : Q.
Variable pointFunc : Q -> Coords.t.

Lemma exactBisection_eq (n : nat) (left right : Q) :
  exactBisection round n left right
  = (Qeq_bool (round (round (left + right) / 2)) ((left + right) / 2)
     && Qeq_bool (round (right - left)) (right - left)
     && (Qle_bool (Qabs (right - left)) precision
         || match n with
            | O => false
            | S n' =>
                exactBisection round n' (round (round (left + right) / 2)) right
                && exactBisection round n' left (round (round (left + right) / 2))
            end)).
Proof. destruct n; reflexivity. Qed.

Lemma findClosestPointVerticallyOn_S (fuel : nat) (left right : Q) :
  findClosestPointVerticallyOn round (S fuel) left right xValue pointFunc
  = if Qle_bool (Qabs (round (right - left))) precision
    then Some (pointFunc (round (round (left + right) / 2)),
               [round (round (left + right) / 2)])
    else
      match (if Qle_bool (Coords.x (pointFunc (round (round (left + right) / 2)))) xValue
             then findClosestPointVerticallyOn round fuel
                    (round (round (left + right) / 2)) right xValue pointFunc
             else findClosestPointVerticallyOn round fuel
                    left (round (round (left + right) / 2)) xValue pointFunc) with
      | None => None
      | Some (point, calls) => Some (point, round (round (left + right) / 2) :: calls)
      end.
Proof. reflexivity. Qed.

(** Where the arithmetic of the bisection is exact, the bisection
    returns, and what holds of the run follows from what holds at the
    last call and is kept by each halving. *)
Lemma exactBisection_runs (holds : Q -> Q -> Coords.t -> list Q -> Prop) :
  (forall left right split,
     split == (left + right) / 2 ->
     Qabs (right - left) <= precision ->
     holds left right (pointFunc split) [split]) ->
  (forall left right split point calls,
     split == (left + right) / 2 ->
     precision < Qabs (right - left) ->
     (1 <= length calls)%nat ->
     (if Qle_bool (Coords.x (pointFunc split)) xValue
      then holds split right point calls
      else holds left split point calls) ->
     holds left right point (split :: calls)) ->
  forall n left right,
    exactBisection round n left right = true ->
    exists point calls,
      (forall fuel, (length calls <= fuel)%nat ->
         findClosestPointVerticallyOn round fuel left right xValue pointFunc
         = Some (point, calls)) /\
      (1 <= length calls <= S n)%nat /\
      holds left right point calls.
Proof.
  intros Hlast Hhalving n.
  induction n as [|n IH]; intros left right Hexact;
    rewrite exactBisection_eq in Hexact;
    apply andb_true_iff in Hexact as [Hexact Hdepth];
    apply andb_true_iff in Hexact as [Hsplit Hwidth];
    apply Qeq_bool_iff in Hsplit; apply Qeq_bool_iff in Hwidth;
    assert (Htest : Qle_bool (Qabs (round (right - left))) precision
                    = Qle_bool (Qabs (right - left)) precision)
      by (now rewrite Hwidth);
    destruct (Qle_bool (Qabs (right - left)) precision) eqn:Hstop;
    cbn [orb] in Hdepth; try discriminate Hdepth.
  - exists (pointFunc (round (round (left + right) / 2))), [round (round (left + right) / 2)].
    split; [|split; [cbn [length]; lia|]].
    + intros [|fuel] Hfuel; [cbn [length] in Hfuel; lia|].
      rewrite findClosestPointVerticallyOn_S, Htest. reflexivity.
    + apply Hlast; [exact Hsplit|]. now apply Qle_bool_iff.
  - exists (pointFunc (round (round (left + right) / 2))), [round (round (left + right) / 2)].
    split; [|split; [cbn [length]; lia|]].
    + intros [|fuel] Hfuel; [cbn [length] in Hfuel; lia|].
      rewrite findClosestPointVerticallyOn_S, Htest. reflexivity.
    + apply Hlast; [exact Hsplit|]. now apply Qle_bool_iff.
  - apply andb_true_iff in Hdepth as [Hright Hleft].
    assert (Hover : precision < Qabs (right - left)).
    { apply Qnot_le_lt. intros H. apply Qle_bool_iff in H. congruence. }
    set (split := round (round (left + right) / 2)) in *.
    destruct (Qle_bool (Coords.x (pointFunc split)) xValue) eqn:Hside.
    + destruct (IH split right Hright) as (point & calls & Hfuel & Hlen & Hholds).
      exists point, (split :: calls).
      split; [|split; [cbn [length]; lia|]].
      * intros [|fuel] Hle; cbn [length] in Hle; [lia|].
        rewrite findClosestPointVerticallyOn_S, Htest. fold split.
        rewrite Hside, Hfuel by lia. reflexivity.
      * apply Hhalving; [exact Hsplit | exact Hover | lia |]. now rewrite Hside.
    + destruct (IH left split Hleft) as (point & calls & Hfuel & Hlen & Hholds).
      exists point, (split :: calls).
      split; [|split; [cbn [length]; lia|]].
      * intros [|fuel] Hle; cbn [length] in Hle; [lia|].
        rewrite findClosestPointVerticallyOn_S, Htest. fold split.
        rewrite Hside, Hfuel by lia. reflexivity.
      * apply Hhalving; [exact Hsplit | exact Hover | lia |]. now rewrite Hside.
Qed.
End RoundedBisection.

(** What is said of a run holds at its last call, and every halving
    keeps it. *)
Section ExactBisection.
Variable round : Q -> Q.
Variable xValue : Q.
Variable pointFunc : Q -> Coords.t.

Lemma bisection_last_call (left right split : Q) :
  split == (left + right) / 2 ->
  Qabs (right - left) <= precision ->
  bisects xValue pointFunc left right (pointFunc split) [split].
Proof.
  intros Hsplit Hstop. unfold bisects. rewrite half_eq in Hsplit. unfold precision in Hstop.
  split; [reflexivity|]. split.
  - intros k. cbn [length]. split; [|lia]. intros _.
    pose proof (pow2_ge_1 k). set (P := 2 ^ Z.of_nat k) in *. unfold precision. lra.
  - intros Hle. rewrite Qabs_pos in Hstop by lra. cbn [last].
    split; [|split].
    + constructor; [|constructor]. split; lra.
    + intros _. lra.
    + intros _. lra.
Qed.

Lemma bisection_halving (left right split : Q) (point : Coords.t) (calls : list Q) :
  split == (left + right) / 2 ->
  precision < Qabs (right - left) ->
  (1 <= length calls)%nat ->
  (if Qle_bool (Coords.x (pointFunc split)) xValue
   then bisects xValue pointFunc split right point calls
   else bisects xValue pointFunc left split point calls) ->
  bisects xValue pointFunc left right point (split :: calls).
Proof.
  intros Hsplit Hover Hlen Hrec. unfold bisects in *.
  assert (Hcount : forall half,
            Qabs half == (1 # 2) * Qabs (right - left) ->
            (forall k, (length calls <= S k)%nat <-> Qabs half <= 2 ^ Z.of_nat k * precision) ->
            forall k, (length (split :: calls) <= S k)%nat <->
                      Qabs (right - left) <= 2 ^ Z.of_nat k * precision).
  { intros half Hhalf Hcalls [|k]; cbn [length].
    - change (2 ^ Z.of_nat 0) with 1. split; [lia|]. intros H. lra.
    - specialize (Hcalls k). rewrite Hhalf in Hcalls. rewrite pow2_succ.
      set (P := 2 ^ Z.of_nat k) in *. set (W := Qabs (right - left)) in *.
      split.
      + intros H. assert (H' : (length calls <= S k)%nat) by lia.
        apply Hcalls in H'. lra.
      + intros H. assert (H' : (1 # 2) * W <= P * precision) by lra.
        apply Hcalls in H'. lia. }
  assert (Hmid : split == (1 # 2) * (left + right)) by (now rewrite Hsplit, half_eq).
  destruct (Qle_bool (Coords.x (pointFunc split)) xValue) eqn:Hside;
    destruct Hrec as (Hpoint & Hcalls & Hinside).
  - split; [now rewrite last_cons_nonempty|]. split.
    + apply (Hcount (right - split)); [|exact Hcalls].
      apply Qabs_half. rewrite Hsplit. field.
    + intros Hle. destruct Hinside as (Hwithin & _ & Hbelow); [lra|].
      rewrite last_cons_nonempty by exact Hlen.
      split; [|split].
      * constructor; [split; lra|].
        eapply Forall_impl; [|exact Hwithin]. cbv beta. intros position [H1 H2].
        split; [lra | exact H2].
      * intros Habove. exfalso. apply Qle_bool_iff in Hside.
        assert (H : xValue < Coords.x (pointFunc split)) by (apply Habove; split; lra).
        lra.
      * intros H. apply Hbelow. intros s [Hs1 Hs2]. apply H. split; lra.
  - split; [now rewrite last_cons_nonempty|]. split.
    + apply (Hcount (split - left)); [|exact Hcalls].
      apply Qabs_half. rewrite Hsplit. field.
    + intros Hle. destruct Hinside as (Hwithin & Habove & _); [lra|].
      rewrite last_cons_nonempty by exact Hlen.
      split; [|split].
      * constructor; [split; lra|].
        eapply Forall_impl; [|exact Hwithin]. cbv beta. intros position [H1 H2].
        split; [exact H1 | lra].
      * intros H. apply Habove. intros s [Hs1 Hs2]. apply H. split; lra.
      * intros Hbelow. exfalso.
        assert (H : Coords.x (pointFunc split) <= xValue) by (apply Hbelow; split; lra).
        apply Qle_bool_iff in H. congruence.
Qed.

(** The run of the bisection on an interval on which its arithmetic is
    exact down to the depth [n]. *)
Lemma exactBisection_run (n : nat) (left right : Q) :
  exactBisection round n left right = true ->
  exists point calls,
    (forall fuel, (length calls <= fuel)%nat ->
       findClosestPointVerticallyOn round fuel left right xValue pointFunc
       = Some (point, calls)) /\
    (1 <= length calls <= S n)%nat /\
    point = pointFunc (last calls 0) /\
    (forall k, (length calls <= S k)%nat <->
               Qabs (right - left) <= 2 ^ Z.of_nat k * precision) /\
    (left <= right ->
     Forall (fun position => left <= position <= right) calls /\
     ((forall s, left <= s <= right -> xValue < Coords.x (pointFunc s)) ->
      last calls 0 - left <= 1 # 4) /\
     ((forall s, left <= s <= right -> Coords.x (pointFunc s) <= xValue) ->
      right - last calls 0 <= 1 # 4)).
Proof.
  intros Hexact.
  destruct (exactBisection_runs round xValue pointFunc (bisects xValue pointFunc)
              bisection_last_call bisection_halving n left right Hexact)
    as (point & calls & Hfuel & Hlen & Hpoint & Hcount & Hinside).
  exists point, calls. auto.
Qed.
End ExactBisection.

(** In exact arithmetic every interval qualifies, to the depth at which
    the halved width is within the precision. *)
Lemma exactBisection_exact (n : nat) :
  forall left right,
    Qabs (right - left) <= 2 ^ Z.of_nat n * precision ->
    exactBisection (fun number => number) n left right = true.
Proof.
  induction n as [|n IH]; intros left right Hwidth;
    rewrite exactBisection_eq, !Qeq_bool_refl; cbn [andb].
  - change (2 ^ Z.of_nat 0) with 1 in Hwidth. rewrite Qmult_1_l in Hwidth.
    apply Qle_bool_iff in Hwidth. now rewrite Hwidth.
  - destruct (Qle_bool (Qabs (right - left)) precision); [reflexivity|]. cbn [orb].
    rewrite pow2_succ in Hwidth.
    rewrite !IH; [reflexivity| |].
    + rewrite (Qabs_half (right - left)) by field.
      set (P := 2 ^ Z.of_nat n) in *. set (W := Qabs (right - left)) in *. lra.
    + rewrite (Qabs_half (right - left)) by field.
      set (P := 2 ^ Z.of_nat n) in *. set (W := Qabs (right - left)) in *. lra.
Qed.

(** C4 (amended): for every interval with [left <= right] on which the
    arithmetic of the bisection is exact, and every [pointFunc], with no
    assumption of monotonicity, the bisection returns whenever the depth
    of recursion allowed is at least the number of its evaluations of
    [pointFunc]; it evaluates [pointFunc] at least once, and for every
    integer [c >= 0] it makes at most [c + 1] evaluations exactly when
    [(right - left) / 0.5 <= 2 ^ c]: the number of evaluations is
    [max 0 (ceil (log2 ((right - left) / 0.5))) + 1], the width of the
    interval being halved at each recursive step. *)
Theorem findClosestPointVertically_terminates (round : Q -> Q) (n : nat)
  (left right xValue : Q) (pointFunc : Q -> Coords.t) :
  left <= right ->
  exactBisection round n left right = true ->
  exists point calls,
    (forall fuel, (length calls <= fuel)%nat ->
       findClosestPointVerticallyOn round fuel left right xValue pointFunc
       = Some (point, calls)) /\
    (1 <= length calls <= S n)%nat /\
    (forall c : Z, (0 <= c)%Z ->
       ((right - left) / precision <= 2 ^ c <-> (Z.of_nat (length calls) <= c + 1)%Z)).
Proof.
  intros Hle Hexact.
  destruct (exactBisection_run round xValue pointFunc n left right Hexact)
    as (point & calls & Hfuel & Hlen & _ & Hcount & _).
  exists point, calls. split; [exact Hfuel|]. split; [exact Hlen|].
  intros c Hc. rewrite over_precision.
  rewrite <- (Z2Nat.id c Hc).
  specialize (Hcount (Z.to_nat c)).
  rewrite (Qabs_pos (right - left)) in Hcount by lra.
  set (P := 2 ^ Z.of_nat (Z.to_nat c)) in *. unfold precision in Hcount.
  split.
  - intros H. assert (H' : right - left <= P * (1 # 2)) by lra.
    apply Hcount in H'. lia.
  - intros H. assert (H' : (length calls <= S (Z.to_nat c))%nat) by lia.
    apply Hcount in H'. lra.
Qed.

(** C4 on the interval [0, 100] in binary64, with the curve [s |-> (s, 0)]
    and the target 30: every midpoint and every width is a double, and the
    bisection makes nine evaluations, that is eight recursive steps. *)
Lemma findClosestPointVertically_terminates_witness :
  0 <= 100 /\
  exactBisection binary64 8 0 100 = true /\
  exists point calls,
    findClosestPointVerticallyOn binary64 9 0 100 30 (fun s => Coords.mk s 0)
    = Some (point, calls) /\
    length calls = 9%nat.
Proof.
  assert (Hle : 0 <= 100) by lra.
  assert (Hexact : exactBisection binary64 8 0 100 = true) by (vm_compute; reflexivity).
  split; [exact Hle|]. split; [exact Hexact|].
  destruct (findClosestPointVertically_terminates binary64 8 0 100 30
              (fun s => Coords.mk s 0) Hle Hexact)
    as (point & calls & Hfuel & Hlen & Hcount).
  assert (H7 : ~ (Z.of_nat (length calls) <= 7 + 1)%Z).
  { intros H. apply (Hcount 7%Z) in H; [|lia]. revert H.
    apply Qlt_not_le. reflexivity. }
  exists point, calls. split; [apply Hfuel|]; lia.
Defined.

(** C4 as stated fails in two ways.  In binary64 the interval
    [1e16, 1e16 + 2] is never narrowed where the curve stays left of the
    target: the sum of its ends rounds to [2e16], the midpoint is the left
    end, and the recursion goes on with the same interval at every depth.
    And on the narrow interval [0, 1/8] the quotient
    [(right - left) / 0.5] is [2 ^ (-2)], so that the stated bound
    [ceil (log2 ...) + 1] is [-1], while the bisection evaluates
    [pointFunc] once. *)
Lemma findClosestPointVertically_unbounded :
  (10000000000000000 <= 10000000000000002 /\
   forall fuel,
     findClosestPointVerticallyOn binary64 fuel 10000000000000000 10000000000000002
       20000000000000000 (fun s => Coords.mk s 0)
     = None)
  /\
  (0 <= 1 # 8 /\
   ((1 # 8) - 0) / precision == 2 ^ (-2) /\
   exists point calls,
     findClosestPointVerticallyOn binary64 1 0 (1 # 8) 0 (fun s => Coords.mk s 0)
     = Some (point, calls) /\
     length calls = 1%nat /\
     ~ (Z.of_nat (length calls) <= -2 + 1)%Z).
Proof.
  split.
  - split; [apply Qle_bool_iff; reflexivity|].
    assert (Hsplit : binary64 (binary64 (10000000000000000 + 10000000000000002) / 2)
                     = 10000000000000000) by (vm_compute; reflexivity).
    assert (Htest : Qle_bool (Qabs (binary64 (10000000000000002 - 10000000000000000)))
                      precision = false) by (vm_compute; reflexivity).
    induction fuel as [|fuel IH]; [reflexivity|].
    rewrite findClosestPointVerticallyOn_S, Htest, Hsplit.
    cbn [Coords.x].
    change (Qle_bool 10000000000000000 20000000000000000) with true.
    cbv iota. now rewrite IH.
  - split; [lra|]. split; [reflexivity|].
    eexists _, _. split; [vm_compute; reflexivity|]. split; [reflexivity|].
    cbn [length]. lia.
Qed.

(** On a curve whose x-coordinate is strictly increasing between [first]
    and [last], the bisection keeps the intersection inside the interval
    and returns the point of a position within half the precision of it. *)
Lemma bisection_brackets (xValue first last intersection : Q)
  (pointFunc : Q -> Coords.t) :
  increasingOn first last pointFunc ->
  Coords.x (pointFunc intersection) == xValue ->
  forall fuel left right point calls,
    first <= left -> right <= last ->
    left <= intersection -> intersection <= right ->
    findClosestPointVerticallyR fuel left right xValue pointFunc = Some (point, calls) ->
    Qabs (List.last calls 0 - intersection) <= precision.
Proof.
  intros Hinc Hcross.
  induction fuel as [|fuel IH];
    intros left right point calls Hfirst Hlast Hl Hr Hrun; [discriminate|].
  pose proof (findClosestPointVerticallyR_calls _ _ _ _ _ _ _ Hrun) as (_ & _ & Hcount & _).
  rewrite findClosestPointVerticallyR_S in Hrun. cbv zeta in Hrun.
  assert (Hsplit : (left + right) / 2 == (1 # 2) * (left + right)) by field.
  destruct (Qle_bool (Qabs (right - left)) precision) eqn:Hstop.
  - injection Hrun as <- <-. apply Qle_bool_iff in Hstop.
    rewrite Qabs_pos in Hstop by lra.
    cbn [List.last]. apply Qabs_Qle_condition.
    set (split := (left + right) / 2) in *. unfold precision in *. lra.
  - destruct (findClosestPointVerticallyR fuel _ _ xValue pointFunc)
      as [[point' calls']|] eqn:Hrec; [|discriminate].
    injection Hrun as <- <-.
    pose proof (findClosestPointVerticallyR_calls _ _ _ _ _ _ _ Hrec) as (_ & Hlen & _).
    rewrite last_cons_nonempty by exact Hlen.
    revert Hrec. unfold narrow.
    destruct (Qle_bool (Coords.x (pointFunc ((left + right) / 2))) xValue) eqn:Hside;
      cbn [fst snd]; intros Hrec.
    + apply Qle_bool_iff in Hside.
      apply (IH _ _ _ _) with (5 := Hrec).
      * set (split := (left + right) / 2) in *. lra.
      * assumption.
      * destruct (Qlt_le_dec intersection ((left + right) / 2)) as [Hlt|Hge];
          [|assumption].
        assert (Hx := Hinc intersection ((left + right) / 2)).
        set (split := (left + right) / 2) in *.
        assert (Hx' : Coords.x (pointFunc intersection) < Coords.x (pointFunc split))
          by (apply Hx; lra).
        lra.
      * assumption.
    + assert (Hgt : xValue < Coords.x (pointFunc ((left + right) / 2))).
      { apply Qnot_le_lt. intros Hle. apply Qle_bool_iff in Hle. congruence. }
      apply (IH _ _ _ _) with (5 := Hrec).
      * assumption.
      * set (split := (left + right) / 2) in *. lra.
      * assumption.
      * destruct (Qlt_le_dec ((left + right) / 2) intersection) as [Hlt|Hge];
          [|assumption].
        assert (Hx := Hinc ((left + right) / 2) intersection).
        set (split := (left + right) / 2) in *.
        assert (Hx' : Coords.x (pointFunc split) < Coords.x (pointFunc intersection))
          by (apply Hx; lra).
        lra.
Qed.

(** C3 (amended): for every curve whose x-coordinate is strictly increasing
    with the position over [0, 100] and every target met by the curve at a
    position of [0, 100], the bisection over [0, 100] returns the point of
    a position within 0.5 of that intersection. *)
Theorem findClosestPointVertically_converges (xValue intersection : Q)
  (pointFunc : Q -> Coords.t) :
  increasingOn 0 100 pointFunc ->
  0 <= intersection <= 100 ->
  Coords.x (pointFunc intersection) == xValue ->
  exists position,
    (forall fuel, (9 <= fuel)%nat ->
       findClosestPointVertically fuel 0 100 xValue pointFunc
       = Some (pointFunc position)) /\
    Qabs (position - intersection) <= precision.
Proof.
  intros Hinc [H0 H100] Hcross.
  destruct (bisection_0_100 xValue pointFunc) as (point & calls & Hrun & Hpoint & Hlen).
  exists (last calls 0). split.
  - intros fuel Hfuel. unfold findClosestPointVertically.
    destruct (findClosestPointVerticallyR_calls _ _ _ _ _ _ _ Hrun) as (_ & _ & _ & Hmore).
    rewrite (Hmore fuel) by lia. cbn [option_map fst]. now rewrite Hpoint.
  - apply (bisection_brackets xValue 0 100 intersection pointFunc Hinc Hcross
             9 0 100 point calls); try assumption; lra.
Qed.

(** C3 on the curve [s |-> (s, 0)] with the target 30, met at the position
    30. *)
Lemma findClosestPointVertically_converges_witness :
  increasingOn 0 100 (fun s => Coords.mk s 0) /\
  0 <= 30 <= 100 /\
  exists position,
    (forall fuel, (9 <= fuel)%nat ->
       findClosestPointVertically fuel 0 100 30 (fun s => Coords.mk s 0)
       = Some (Coords.mk position 0)) /\
    Qabs (position - 30) <= precision.
Proof.
  assert (Hinc : increasingOn 0 100 (fun s => Coords.mk s 0)).
  { intros a b _ Hab _. exact Hab. }
  assert (Hin : 0 <= 30 <= 100) by (split; lra).
  split; [exact Hinc|]. split; [exact Hin|].
  apply (findClosestPointVertically_converges 30 30 (fun s => Coords.mk s 0) Hinc Hin).
  reflexivity.
Defined.

(** C3 as stated fails on a curve whose x-coordinate is strictly
    decreasing: on [s |-> (100 - s, 0)] the target 90 lies between the
    x-coordinates of the two ends and is met at the position 10, and the
    bisection returns the point of the position 51100/512, near 99.8. *)
Lemma findClosestPointVertically_decreasing_curve :
  monotonicOn 0 100 (fun s => Coords.mk (100 - s) 0) /\
  0 <= 10 <= 100 /\
  Coords.x (Coords.mk (100 - 10) 0) == 90 /\
  Coords.x (Coords.mk (100 - 100) 0) <= 90 <= Coords.x (Coords.mk (100 - 0) 0) /\
  findClosestPointVertically 9 0 100 90 (fun s => Coords.mk (100 - s) 0)
  = Some (Coords.mk (100 - (51100 # 512)) 0) /\
  forall position,
    Coords.x (Coords.mk (100 - position) 0) == Coords.x (Coords.mk (100 - (51100 # 512)) 0) ->
    ~ Qabs (position - 10) <= precision.
Proof.
  split.
  { right. intros a b _ Hab _. cbn [Coords.x]. lra. }
  split; [split; lra|].
  split; [reflexivity|].
  split; [cbn [Coords.x]; split; lra|].
  split; [reflexivity|].
  intros position Hsame Hnear. cbn [Coords.x] in Hsame.
  apply Qabs_Qle_condition in Hnear. unfold precision in Hnear. lra.
Qed.

(** ** Stack builder *)

Lemma map_seq_nth {A B : Type} (f : A -> B) (l : list A) (d : A) :
  map (fun i => f (nth i l d)) (seq 0 (length l)) = map f l.
Proof.
  induction l as [|a l IH]; [reflexivity|].
  cbn [length]. rewrite <- cons_seq, <- seq_shift, map_cons, map_map.
  cbn [nth map]. now rewrite IH.
Qed.

Lemma minLength_equal (m : nat) (rows : list (list Q)) :
  forall row, equalLength m (row :: rows) -> D3.minLength row rows = m.
Proof.
  induction rows as [|r rows IH]; intros row Hall;
    inversion Hall as [|? ? Hrow Hrows]; subst; cbn [D3.minLength].
  - reflexivity.
  - rewrite (IH r Hrows). inversion Hrows; subst. lia.
Qed.

Lemma equalLength_nth (m : nat) (matrix : list (list Q)) (k : nat) :
  equalLength m matrix -> (k < length matrix)%nat -> length (nth k matrix []) = m.
Proof.
  intros Hall Hk. unfold equalLength in Hall. rewrite Forall_forall in Hall.
  apply Hall. now apply nth_In.
Qed.

(** Before the offset, the series that [d3.stack] builds from the
    transposed matrix are the input series, each value [v] as [[0, v]]. *)
Lemma stack_series (m : nat) (matrix : list (list Q)) :
  equalLength m matrix ->
  map (fun k => map (fun d => (0, nth k d 0)) (D3.transpose matrix))
      (D3.range (length matrix))
  = map (map (fun v => (0, v))) matrix.
Proof.
  intros Hall. unfold D3.range.
  rewrite <- (map_seq_nth (map (fun v => (0, v))) matrix []).
  apply map_ext_in. intros k Hk. apply in_seq in Hk.
  destruct matrix as [|row rows]; [cbn [length] in Hk; lia|].
  unfold D3.transpose. rewrite (minLength_equal m rows row Hall), map_map.
  rewrite <- (map_seq_nth (fun v => (0, v)) (nth k (row :: rows) []) 0).
  rewrite (equalLength_nth m _ k Hall) by lia.
  apply map_ext. intros i. f_equal.
  rewrite (nth_indep _ 0 ((fun r => nth i r 0) [])) by (rewrite length_map; lia).
  exact (map_nth (fun r => nth i r 0) (row :: rows) [] k).
Qed.

(** [array.map] with a callback that returns on every element returns,
    and relates the elements position by position. *)
Lemma mapFrom_spec {A B : Type} (callback : A -> nat -> option B)
  (related : A -> nat -> B -> Prop) (array : list A) :
  forall start,
    (forall a j, nth_error array j = Some a ->
                 exists b, callback a (start + j)%nat = Some b /\
                           related a (start + j)%nat b) ->
    exists result,
      mapFrom start callback array = Some result /\
      length result = length array /\
      forall j b, nth_error result j = Some b ->
                  exists a, nth_error array j = Some a /\ related a (start + j)%nat b.
Proof.
  induction array as [|a array IH]; intros start Hcall; cbn [mapFrom].
  - exists []. split; [reflexivity|]. split; [reflexivity|].
    intros [|j] b Hb; discriminate.
  - destruct (Hcall a 0%nat eq_refl) as (b & Hb & Hrel).
    rewrite Nat.add_0_r in Hb, Hrel. rewrite Hb.
    destruct (IH (S start)) as (result & Hrun & Hlen & Hnth).
    { intros a' j Hj. rewrite Nat.add_succ_comm. now apply (Hcall a' (S j)). }
    rewrite Hrun. exists (b :: result).
    split; [reflexivity|]. split; [cbn [length]; now rewrite Hlen|].
    intros [|j] b' Hb'.
    + injection Hb' as <-. exists a. rewrite Nat.add_0_r. now split.
    + destruct (Hnth j b' Hb') as (a' & Ha' & Hrel').
      exists a'. rewrite <- Nat.add_succ_comm. now split.
Qed.

Lemma updateStack_annotates (degenerate : Q) (this : AreaGraph)
  (matrix : list (list Q)) (metas : list AreaMeta) :
  areas (data this) = Some matrix ->
  areaMeta (data this) = Some metas ->
  exists fullStack,
    updateStack degenerate this = Some fullStack /\
    length fullStack
    = length (D3.stack (D3.range (length matrix)) (D3.transpose matrix)) /\
    forall areaIndex area,
      nth_error fullStack areaIndex = Some area ->
      exists arrays,
        nth_error (D3.stack (D3.range (length matrix)) (D3.transpose matrix)) areaIndex
        = Some arrays /\
        length area = length arrays /\
        forall index p,
          nth_error area index = Some p ->
          exists raw, nth_error arrays index = Some raw /\
                      annotates metas raw areaIndex p.
Proof.
  intros Hareas Hmetas.
  unfold updateStack, areaCount. rewrite Hareas.
  set (transposedStack := D3.stack _ _).
  destruct matrix as [|first rest].
  - exists []. repeat split; try reflexivity. intros [|k] area H; discriminate.
  - unfold mapArray.
    apply (mapFrom_spec _
             (fun arrays areaIndex area =>
                length area = length arrays /\
                forall index p,
                  nth_error area index = Some p ->
                  exists raw, nth_error arrays index = Some raw /\
                              annotates metas raw areaIndex p)).
    intros arrays areaIndex _. cbn [Nat.add].
    destruct (mapFrom_spec
                (fun currentValue index =>
                   sectionCount <- xAxisSectionCount this ;;
                   scale <- xScale this ;;
                   metas' <- areaMeta (data this) ;;
                   Some {| d0 := fst currentValue;
                           d1 := snd currentValue;
                           coords :=
                             Coords.mk
                               (D3.scaleLinear.invert degenerate scale
                                  (if Nat.eqb index 0 then 0
                                   else clientWidth (container this) / sectionCount
                                        * inject_Z (Z.of_nat index)))
                               (snd currentValue);
                           meta := nth_error metas' areaIndex |})
                (fun raw _ p => annotates metas raw areaIndex p) arrays 0%nat)
      as (area & Hrun & Hlen & Hpoints).
    { intros raw index _.
      unfold xScale, xAxisSectionCount. rewrite Hareas, Hmetas. cbn [nth_error].
      eexists. split; [reflexivity|]. repeat split. }
    exists area. split; [exact Hrun|]. split; [exact Hlen|].
    intros index p Hp. destruct (Hpoints index p Hp) as (raw & Hraw & Hann).
    exists raw. now split.
Qed.

Lemma offsetNoneFrom_length (series : list (list (Q * Q))) :
  forall s0, length (D3.offsetNoneFrom s0 series) = length series.
Proof.
  induction series as [|s1 rest IH]; intros s0; cbn [D3.offsetNoneFrom length];
    [reflexivity|]. now rewrite IH.
Qed.

(** One step of the offset: the lower value is the upper value below, the
    upper value is the own value plus that. *)
Lemma offset_row (s0 : list (Q * Q)) (s1 : list Q) (j : nat) :
  length s0 = length s1 ->
  nth j (map (fun p : (Q * Q) * (Q * Q) => (snd (fst p), snd (snd p) + snd (fst p)))
             (combine s0 (map (fun v => (0, v)) s1))) (0, 0 + 0)
  = (snd (nth j s0 (0, 0)), nth j s1 0 + snd (nth j s0 (0, 0))).
Proof.
  intros Hlen.
  etransitivity.
  { exact (map_nth (fun p : (Q * Q) * (Q * Q) => (snd (fst p), snd (snd p) + snd (fst p)))
                   (combine s0 (map (fun v => (0, v)) s1)) ((0, 0), (0, 0)) j). }
  rewrite combine_nth by (now rewrite length_map).
  pose proof (map_nth (fun v : Q => (0, v)) s1 0 j) as Hown. cbv beta in Hown.
  rewrite Hown. reflexivity.
Qed.

Lemma offsetNoneFrom_spec (m : nat) (rest : list (list Q)) :
  forall s0 k arrays,
    length s0 = m ->
    equalLength m rest ->
    nth_error (D3.offsetNoneFrom s0 (map (map (fun v => (0, v))) rest)) k = Some arrays ->
    length arrays = m /\
    forall j raw,
      nth_error arrays j = Some raw ->
      fst raw == snd (nth j s0 (0, 0)) + sumAt j (firstn k rest) /\
      snd raw == fst raw + nth j (nth k rest []) 0.
Proof.
  induction rest as [|s1 rest IH]; intros s0 k arrays Hs0 Hall Hk;
    [destruct k; discriminate|].
  inversion Hall as [|? ? Hs1 Hrest]; subst.
  cbn [map D3.offsetNoneFrom] in Hk.
  set (s1' := map _ (combine s0 (map (fun v => (0, v)) s1))) in Hk.
  assert (Hlen' : length s1' = length s1).
  { unfold s1'. rewrite length_map, length_combine, length_map. lia. }
  assert (Hrow : forall j, (j < length s1)%nat ->
                 nth j s1' (0, 0)
                 = (snd (nth j s0 (0, 0)), nth j s1 0 + snd (nth j s0 (0, 0)))).
  { intros j Hj. rewrite (nth_indep _ (0, 0) (0, 0 + 0)) by lia.
    now apply offset_row. }
  destruct k as [|k]; cbn [nth_error] in Hk.
  - injection Hk as <-. split; [lia|].
    intros j raw Hraw.
    assert (Hj : (j < length s1)%nat).
    { rewrite <- Hlen'. apply nth_error_Some. congruence. }
    apply (nth_error_nth _ _ (0, 0)) in Hraw. rewrite Hrow in Hraw by exact Hj.
    subst raw. cbn [fst snd firstn sumAt nth]. split; ring.
  - destruct (IH s1' k arrays (eq_trans Hlen' Hs1) Hrest Hk) as (Hlen & Hvalues).
    split; [exact Hlen|].
    intros j raw Hraw.
    assert (Hj : (j < length s1)%nat).
    { rewrite Hs1, <- Hlen. apply nth_error_Some. congruence. }
    destruct (Hvalues j raw Hraw) as (Hlow & Hup).
    rewrite Hrow in Hlow by exact Hj. cbn [snd] in Hlow.
    cbn [firstn sumAt nth]. split; [rewrite Hlow; ring | exact Hup].
Qed.

(** The zero-baseline stack of equal-length series: one series of points
    per input series, the lower value of a point being the sum of the
    values of the series before it at the same section, and its upper
    value that sum plus the own value. *)
Lemma d3_stack_spec (m : nat) (matrix : list (list Q)) :
  equalLength m matrix ->
  length (D3.stack (D3.range (length matrix)) (D3.transpose matrix)) = length matrix /\
  forall k arrays,
    nth_error (D3.stack (D3.range (length matrix)) (D3.transpose matrix)) k = Some arrays ->
    length arrays = m /\
    forall j raw,
      nth_error arrays j = Some raw ->
      fst raw == sumAt j (firstn k matrix) /\
      snd raw == fst raw + nth j (nth k matrix []) 0.
Proof.
  intros Hall. unfold D3.stack. rewrite (stack_series m matrix Hall).
  destruct matrix as [|s0 rest]; cbn [map D3.stackOffsetNone].
  - split; [reflexivity|]. intros [|k] arrays H; discriminate.
  - inversion Hall as [|? ? Hs0 Hrest]; subst.
    split; [cbn [length]; now rewrite offsetNoneFrom_length, length_map|].
    intros [|k] arrays Hk; cbn [nth_error] in Hk.
    + injection Hk as <-. split; [apply length_map|].
      intros j raw Hraw. rewrite nth_error_map in Hraw.
      destruct (nth_error s0 j) as [v|] eqn:Hv; [|discriminate].
      injection Hraw as <-. apply (nth_error_nth _ _ 0) in Hv.
      cbn [fst snd firstn sumAt nth]. rewrite Hv. split; ring.
    + destruct (offsetNoneFrom_spec (length s0) rest _ k arrays
                  (length_map _ s0) Hrest Hk) as (Hlen & Hvalues).
      split; [exact Hlen|].
      intros j raw Hraw. destruct (Hvalues j raw Hraw) as (Hlow & Hup).
      pose proof (map_nth (fun v : Q => (0, v)) s0 0 j) as Hown. cbv beta in Hown.
      rewrite Hown in Hlow. cbn [snd] in Hlow.
      cbn [firstn sumAt nth]. split; assumption.
Qed.

(** C1: for equal-length series, [updateStack] returns the zero-baseline
    cumulative stack: the point of the series [areaIndex] at the section
    [index] has as baseline the sum of the values of the series before it
    at that section, and as top its baseline plus the own value. *)
Theorem updateStack_cumulative (degenerate : Q) (this : AreaGraph)
  (matrix : list (list Q)) (metas : list AreaMeta) (m : nat) :
  areas (data this) = Some matrix ->
  areaMeta (data this) = Some metas ->
  equalLength m matrix ->
  exists fullStack,
    updateStack degenerate this = Some fullStack /\
    forall areaIndex index,
      (areaIndex < length matrix)%nat -> (index < m)%nat ->
      exists p,
        stackPointAt fullStack areaIndex index = Some p /\
        d0 p == sumAt index (firstn areaIndex matrix) /\
        d1 p == d0 p + nth index (nth areaIndex matrix []) 0.
Proof.
  intros Hareas Hmetas Hequal.
  destruct (updateStack_annotates degenerate this matrix metas Hareas Hmetas)
    as (fullStack & Hrun & Hlen & Hpoints).
  destruct (d3_stack_spec m matrix Hequal) as (Hrawlen & Hraw).
  exists fullStack. split; [exact Hrun|].
  intros areaIndex index HareaIndex Hindex. unfold stackPointAt.
  destruct (nth_error fullStack areaIndex) as [area|] eqn:Harea.
  2: { apply nth_error_None in Harea. lia. }
  destruct (Hpoints areaIndex area Harea) as (arrays & Harrays & Hsame & Hann).
  destruct (Hraw areaIndex arrays Harrays) as (Hm & Hvalues).
  destruct (nth_error area index) as [p|] eqn:Hp.
  2: { apply nth_error_None in Hp. lia. }
  destruct (Hann index p Hp) as (raw & Hrawp & Hd0 & Hd1 & _).
  destruct (Hvalues index raw Hrawp) as (Hlow & Hup).
  exists p. split; [reflexivity|]. rewrite Hd0, Hd1. now split.
Qed.

(** C1 on the spec's series [[1,2],[3,4]]: at the section 0 the point of
    the series 1 has baseline 1 and top 4, the point of the series 0 has
    baseline 0 and top 1. *)
Lemma updateStack_cumulative_witness :
  exists fullStack,
    updateStack 0 (newGraph 100 50 (mkData (Some [[1; 2]; [3; 4]]) (Some [NoMeta; NoMeta])))
    = Some fullStack /\
    (exists p, stackPointAt fullStack 1 0 = Some p /\ d0 p == 1 /\ d1 p == 4) /\
    (exists p, stackPointAt fullStack 0 0 = Some p /\ d0 p == 0 /\ d1 p == 1).
Proof.
  destruct (updateStack_cumulative 0
              (newGraph 100 50 (mkData (Some [[1; 2]; [3; 4]]) (Some [NoMeta; NoMeta])))
              [[1; 2]; [3; 4]] [NoMeta; NoMeta] 2 eq_refl eq_refl
              ltac:(repeat constructor))
    as (fullStack & Hrun & Hpoints).
  exists fullStack. split; [exact Hrun|]. split.
  - destruct (Hpoints 1%nat 0%nat ltac:(cbn [length]; lia) ltac:(lia))
      as (p & Hp & Hd0 & Hd1).
    exists p. split; [exact Hp|]. cbn [firstn sumAt nth] in Hd0, Hd1.
    split; [rewrite Hd0 | rewrite Hd1, Hd0]; reflexivity.
  - destruct (Hpoints 0%nat 0%nat ltac:(cbn [length]; lia) ltac:(lia))
      as (p & Hp & Hd0 & Hd1).
    exists p. split; [exact Hp|]. cbn [firstn sumAt nth] in Hd0, Hd1.
    split; [rewrite Hd0 | rewrite Hd1, Hd0]; reflexivity.
Defined.

(** The values of the spec's example, by evaluation. *)
Example updateStack_example :
  option_map (map (map (fun p => (d0 p, d1 p))))
    (updateStack 0 (newGraph 100 50 (mkData (Some [[1; 2]; [3; 4]]) (Some [NoMeta; NoMeta]))))
  = Some [[(0, 1); (0, 2)]; [(1, 4); (2, 6)]].
Proof. reflexivity. Qed.

(** C8: for equal-length series and a metadata sequence, [updateStack]
    returns one sequence of points per series, each of the length of the
    series, and the [meta] of every point is the entry of the metadata
    sequence at the index of the point's series. *)
Theorem updateStack_shape (degenerate : Q) (this : AreaGraph)
  (matrix : list (list Q)) (metas : list AreaMeta) (m : nat) :
  areas (data this) = Some matrix ->
  areaMeta (data this) = Some metas ->
  equalLength m matrix ->
  exists fullStack,
    updateStack degenerate this = Some fullStack /\
    length fullStack = length matrix /\
    forall areaIndex area,
      nth_error fullStack areaIndex = Some area ->
      length area = m /\
      forall p, In p area -> meta p = nth_error metas areaIndex.
Proof.
  intros Hareas Hmetas Hequal.
  destruct (updateStack_annotates degenerate this matrix metas Hareas Hmetas)
    as (fullStack & Hrun & Hlen & Hpoints).
  destruct (d3_stack_spec m matrix Hequal) as (Hrawlen & Hraw).
  exists fullStack. split; [exact Hrun|]. split; [congruence|].
  intros areaIndex area Harea.
  destruct (Hpoints areaIndex area Harea) as (arrays & Harrays & Hsame & Hann).
  destruct (Hraw areaIndex arrays Harrays) as (Hm & _).
  split; [congruence|].
  intros p Hin. apply In_nth_error in Hin. destruct Hin as (index & Hp).
  destruct (Hann index p Hp) as (raw & _ & _ & _ & _ & Hmeta). exact Hmeta.
Qed.

(** C8 on three series of length five: three sequences of five points. *)
Lemma updateStack_shape_witness :
  exists fullStack,
    updateStack 0
      (newGraph 100 50
         (mkData (Some [[1; 1; 2; 3; 3]; [3; 3; 4; 7; 8]; [1; 1; 2; 5; 7]])
                 (Some [NoMeta; ClassNames "area--blue-light"; ClassNames "area--green-dark"])))
    = Some fullStack /\
    length fullStack = 3%nat /\
    forall areaIndex area,
      nth_error fullStack areaIndex = Some area ->
      length area = 5%nat /\
      forall p, In p area ->
                meta p = nth_error [NoMeta; ClassNames "area--blue-light";
                                    ClassNames "area--green-dark"] areaIndex.
Proof.
  apply (updateStack_shape 0
           (newGraph 100 50
              (mkData (Some [[1; 1; 2; 3; 3]; [3; 3; 4; 7; 8]; [1; 1; 2; 5; 7]])
                      (Some [NoMeta; ClassNames "area--blue-light";
                             ClassNames "area--green-dark"])))
           [[1; 1; 2; 3; 3]; [3; 3; 4; 7; 8]; [1; 1; 2; 5; 7]]
           [NoMeta; ClassNames "area--blue-light"; ClassNames "area--green-dark"] 5
           eq_refl eq_refl).
  repeat constructor.
Defined.

(** ** Extent of the stack *)

Section Extremum.
Variable better : Q -> Q -> bool.
Variable atLeast : Q -> Q -> Prop.
Hypothesis atLeast_refl : forall v, atLeast v v.
Hypothesis atLeast_trans : forall u v w, atLeast u v -> atLeast v w -> atLeast u w.
Hypothesis better_true : forall v m, better v m = true -> atLeast v m.
Hypothesis better_false : forall v m, better v m = false -> atLeast m v.

Lemma extreme_fold {A : Type} (valueof : A -> option Q) (values : list A) :
  forall start m,
    fold_left (extreme better valueof) values start = Some m ->
    ((exists a, In a values /\ valueof a = Some m) \/ start = Some m) /\
    (forall a v, In a values -> valueof a = Some v -> atLeast m v) /\
    (forall m', start = Some m' -> atLeast m m').
Proof.
  induction values as [|a values IH]; intros start m Hfold; cbn [fold_left] in Hfold.
  - split; [now right|]. split; [intros a v []|].
    intros m' Hstart. rewrite Hstart in Hfold. injection Hfold as <-.
    apply atLeast_refl.
  - destruct (IH _ _ Hfold) as (Horigin & Hvalues & Hstart).
    unfold extreme in Horigin, Hstart.
    destruct (valueof a) as [v|] eqn:Ha.
    + destruct start as [m0|].
      * destruct (better v m0) eqn:Hbetter.
        -- assert (Hmv : atLeast m v) by now apply Hstart.
           split; [|split].
           ++ destruct Horigin as [(b & Hb & Hvb)|Hv].
              ** left. exists b. split; [now right | assumption].
              ** left. exists a. split; [now left | congruence].
           ++ intros b w [<-|Hb] Hw; [|now apply (Hvalues b)].
              rewrite Ha in Hw. now injection Hw as <-.
           ++ intros m' Hm'. injection Hm' as <-.
              apply atLeast_trans with v; [assumption | now apply better_true].
        -- assert (Hm0 : atLeast m m0) by now apply Hstart.
           split; [|split].
           ++ destruct Horigin as [(b & Hb & Hvb)|Hv].
              ** left. exists b. split; [now right | assumption].
              ** now right.
           ++ intros b w [<-|Hb] Hw; [|now apply (Hvalues b)].
              rewrite Ha in Hw. injection Hw as <-.
              apply atLeast_trans with m0; [assumption | now apply better_false].
           ++ intros m' Hm'. now injection Hm' as <-.
      * assert (Hmv : atLeast m v) by now apply Hstart.
        split; [|split].
        -- left. destruct Horigin as [(b & Hb & Hvb)|Hv].
           ++ exists b. split; [now right | assumption].
           ++ exists a. split; [now left | congruence].
        -- intros b w [<-|Hb] Hw; [|now apply (Hvalues b)].
           rewrite Ha in Hw. now injection Hw as <-.
        -- discriminate.
    + split; [|split].
      * destruct Horigin as [(b & Hb & Hvb)|Hv]; [|now right].
        left. exists b. split; [now right | assumption].
      * intros b w [<-|Hb] Hw; [congruence | now apply (Hvalues b)].
      * exact Hstart.
Qed.

Lemma extreme_fold_some {A : Type} (valueof : A -> option Q) (values : list A) :
  forall start,
    (start <> None \/ exists a v, In a values /\ valueof a = Some v) ->
    exists m, fold_left (extreme better valueof) values start = Some m.
Proof.
  induction values as [|a values IH]; intros start Hsome; cbn [fold_left].
  - destruct Hsome as [Hstart|(a & v & [] & _)].
    destruct start as [m|]; [eauto | contradiction].
  - apply IH. unfold extreme.
    destruct Hsome as [Hstart|(b & v & [<-|Hb] & Hv)].
    + left. destruct (valueof a), start; try destruct (better _ _); congruence.
    + left. rewrite Hv. destruct start; [destruct (better _ _)|]; congruence.
    + right. eauto.
Qed.
End Extremum.

Lemma d3_min_spec {A : Type} (values : list A) (valueof : A -> option Q) (m : Q) :
  D3.min values valueof = Some m ->
  (exists a, In a values /\ valueof a = Some m) /\
  (forall a v, In a values -> valueof a = Some v -> m <= v).
Proof.
  intros Hmin.
  destruct (extreme_fold (fun v m' => Qlt_bool v m') (fun m' v => m' <= v)
              Qle_refl Qle_trans
              (fun v m' H => Qlt_le_weak _ _ (proj1 (Qlt_bool_iff v m') H))
              (fun v m' H => proj1 (Qlt_bool_false_iff v m') H)
              valueof values None m Hmin) as ([Horigin|Hnone] & Hleast & _).
  - now split.
  - discriminate.
Qed.

Lemma d3_max_spec {A : Type} (values : list A) (valueof : A -> option Q) (m : Q) :
  D3.max values valueof = Some m ->
  (exists a, In a values /\ valueof a = Some m) /\
  (forall a v, In a values -> valueof a = Some v -> v <= m).
Proof.
  intros Hmax.
  destruct (extreme_fold (fun v m' => Qlt_bool m' v) (fun m' v => v <= m')
              Qle_refl (fun u v w Huv Hvw => Qle_trans _ _ _ Hvw Huv)
              (fun v m' H => Qlt_le_weak _ _ (proj1 (Qlt_bool_iff m' v) H))
              (fun v m' H => proj1 (Qlt_bool_false_iff m' v) H)
              valueof values None m Hmax) as ([Horigin|Hnone] & Hgreatest & _).
  - now split.
  - discriminate.
Qed.

(** The domain of the y-scale: its lower bound is the least baseline of
    the points of the stack, its upper bound their greatest top. *)
Lemma yScale_domain (this : AreaGraph) (scale : D3.scaleLinear.t) :
  yScale this = Some scale ->
  (exists area p, In area (stack this) /\ In p area /\
                  d0 p = fst (D3.scaleLinear.domain scale)) /\
  (forall area p, In area (stack this) -> In p area ->
                  fst (D3.scaleLinear.domain scale) <= d0 p) /\
  (exists area p, In area (stack this) /\ In p area /\
                  d1 p = snd (D3.scaleLinear.domain scale)) /\
  (forall area p, In area (stack this) -> In p area ->
                  d1 p <= snd (D3.scaleLinear.domain scale)).
Proof.
  unfold yScale.
  destruct (D3.min (stack this) stackMin) as [lo|] eqn:Hlo; [|discriminate].
  destruct (D3.max (stack this) stackMax) as [hi|] eqn:Hhi; [|discriminate].
  intros H. injection H as <-. cbn [D3.scaleLinear.domain fst snd].
  destruct (d3_min_spec _ _ _ Hlo) as ((areaLo & HareaLo & HminLo) & Hleast).
  destruct (d3_max_spec _ _ _ Hhi) as ((areaHi & HareaHi & HmaxHi) & Hgreatest).
  unfold stackMin in HminLo. unfold stackMax in HmaxHi.
  destruct (d3_min_spec _ _ _ HminLo) as ((pLo & HpLo & HvLo) & _).
  destruct (d3_max_spec _ _ _ HmaxHi) as ((pHi & HpHi & HvHi) & _).
  split; [exists areaLo, pLo; repeat split; congruence|].
  split.
  - intros area p Harea Hp.
    destruct (extreme_fold_some (fun v m' => Qlt_bool v m') (fun d => Some (d0 d)) area None)
      as (v & Hv); [right; eauto|].
    change (stackMin area = Some v) in Hv.
    apply Qle_trans with v.
    + now apply (Hleast area).
    + now apply (proj2 (d3_min_spec area (fun d => Some (d0 d)) v Hv) p).
  - split; [exists areaHi, pHi; repeat split; congruence|].
    intros area p Harea Hp.
    destruct (extreme_fold_some (fun v m' => Qlt_bool m' v) (fun d => Some (d1 d)) area None)
      as (v & Hv); [right; eauto|].
    change (stackMax area = Some v) in Hv.
    apply Qle_trans with v.
    + now apply (proj2 (d3_max_spec area (fun d => Some (d1 d)) v Hv) p).
    + now apply (Hgreatest area).
Qed.

(** ** Coordinate mapper *)

Lemma deinterpolateLinear_proper (degenerate a b x : Q) :
  ~ a == b ->
  D3.scaleLinear.deinterpolateLinear degenerate a b x = (x - a) / (b - a).
Proof.
  intros Hne. unfold D3.scaleLinear.deinterpolateLinear.
  destruct (Qeq_bool (b - a) 0) eqn:E; [|reflexivity].
  apply Qeq_bool_iff in E. exfalso. apply Hne. lra.
Qed.

(** A scale whose domain and range are not degenerate is a bijection:
    [invert] undoes [apply], and [apply] undoes [invert]. *)
Lemma scale_roundtrip (degenerate : Q) (scale : D3.scaleLinear.t) :
  ~ fst (D3.scaleLinear.domain scale) == snd (D3.scaleLinear.domain scale) ->
  ~ fst (D3.scaleLinear.range scale) == snd (D3.scaleLinear.range scale) ->
  forall v,
    D3.scaleLinear.invert degenerate scale (D3.scaleLinear.apply degenerate scale v) == v /\
    D3.scaleLinear.apply degenerate scale (D3.scaleLinear.invert degenerate scale v) == v.
Proof.
  destruct scale as [[a b] [r s]]. cbn [D3.scaleLinear.domain D3.scaleLinear.range fst snd].
  intros Hd Hr v.
  assert (Hd' : ~ b == a) by (intros H; apply Hd; now symmetry).
  assert (Hr' : ~ s == r) by (intros H; apply Hr; now symmetry).
  unfold D3.scaleLinear.invert, D3.scaleLinear.apply, D3.scaleLinear.bimap.
  cbn [D3.scaleLinear.domain D3.scaleLinear.range].
  destruct (Qlt_bool b a), (Qlt_bool s r);
    rewrite ?deinterpolateLinear_proper by assumption;
    unfold D3.interpolateNumber; split; field; lra.
Qed.

Lemma scale_endpoints (degenerate : Q) (scale : D3.scaleLinear.t) :
  ~ fst (D3.scaleLinear.domain scale) == snd (D3.scaleLinear.domain scale) ->
  D3.scaleLinear.apply degenerate scale (fst (D3.scaleLinear.domain scale))
  == fst (D3.scaleLinear.range scale) /\
  D3.scaleLinear.apply degenerate scale (snd (D3.scaleLinear.domain scale))
  == snd (D3.scaleLinear.range scale).
Proof.
  destruct scale as [[a b] [r s]]. cbn [D3.scaleLinear.domain D3.scaleLinear.range fst snd].
  intros Hd.
  assert (Hd' : ~ b == a) by (intros H; apply Hd; now symmetry).
  unfold D3.scaleLinear.apply, D3.scaleLinear.bimap.
  cbn [D3.scaleLinear.domain D3.scaleLinear.range].
  destruct (Qlt_bool b a);
    rewrite ?deinterpolateLinear_proper by assumption;
    unfold D3.interpolateNumber; split; field; lra.
Qed.

(** The y-scale of the transpiled method has the range [[height, 5]]: the
    least stacked value is drawn at the pixel height, the greatest at the
    pixel 5. *)
Lemma yScale_extremes (degenerate : Q) (this : AreaGraph) (scale : D3.scaleLinear.t) :
  yScale this = Some scale ->
  D3.min (stack this) stackMin = Some (fst (D3.scaleLinear.domain scale)) /\
  D3.max (stack this) stackMax = Some (snd (D3.scaleLinear.domain scale)) /\
  D3.scaleLinear.range scale = (clientHeight (container this), 5) /\
  (~ fst (D3.scaleLinear.domain scale) == snd (D3.scaleLinear.domain scale) ->
   D3.scaleLinear.apply degenerate scale (fst (D3.scaleLinear.domain scale))
   == clientHeight (container this) /\
   D3.scaleLinear.apply degenerate scale (snd (D3.scaleLinear.domain scale)) == 5).
Proof.
  unfold yScale.
  destruct (D3.min (stack this) stackMin) as [lo|]; [|discriminate].
  destruct (D3.max (stack this) stackMax) as [hi|]; [|discriminate].
  intros H. injection H as <-. cbn [D3.scaleLinear.domain D3.scaleLinear.range fst snd].
  repeat split; try reflexivity;
    apply (scale_endpoints degenerate
             (D3.scaleLinear.mk (lo, hi) (clientHeight (container this), 5))); assumption.
Qed.

(** The same for the method of the ES2015 source, whose range is
    [[height, 0]]. *)
Lemma yScaleES_extremes (degenerate : Q) (this : AreaGraph) (scale : D3.scaleLinear.t) :
  yScaleES this = Some scale ->
  D3.scaleLinear.range scale = (clientHeight (container this), 0) /\
  (~ fst (D3.scaleLinear.domain scale) == snd (D3.scaleLinear.domain scale) ->
   D3.scaleLinear.apply degenerate scale (fst (D3.scaleLinear.domain scale))
   == clientHeight (container this) /\
   D3.scaleLinear.apply degenerate scale (snd (D3.scaleLinear.domain scale)) == 0).
Proof.
  unfold yScaleES.
  destruct (D3.min (stack this) stackMin) as [lo|]; [|discriminate].
  destruct (D3.max (stack this) stackMax) as [hi|]; [|discriminate].
  intros H. injection H as <-. cbn [D3.scaleLinear.domain D3.scaleLinear.range fst snd].
  split; [reflexivity|].
  apply (scale_endpoints degenerate
           (D3.scaleLinear.mk (lo, hi) (clientHeight (container this), 0))).
Qed.

(** C5, on the code: for the graph built from the series [[1,2],[3,4]] in
    a container 100 wide and 50 high, the y-scale of the transpiled method
    has the domain [[0, 6]], the least baseline and the greatest top, and
    the range [[50, 5]]: the greatest stacked value is drawn at the pixel
    5, where the method of the ES2015 source draws it at the pixel 0. *)
Theorem yScale_draws_maximum_at_5 :
  construct 0 100 50 exampleData = Some exampleGraph /\
  yScale exampleGraph = Some (D3.scaleLinear.mk (0, 6) (50, 5)) /\
  D3.scaleLinear.apply 0 (D3.scaleLinear.mk (0, 6) (50, 5)) 0 == 50 /\
  D3.scaleLinear.apply 0 (D3.scaleLinear.mk (0, 6) (50, 5)) 6 == 5 /\
  ~ D3.scaleLinear.apply 0 (D3.scaleLinear.mk (0, 6) (50, 5)) 6 == 0 /\
  yScaleES exampleGraph = Some (D3.scaleLinear.mk (0, 6) (50, 0)) /\
  D3.scaleLinear.apply 0 (D3.scaleLinear.mk (0, 6) (50, 0)) 6 == 0.
Proof.
  split; [reflexivity|].
  split; [reflexivity|].
  split; [reflexivity|].
  split; [reflexivity|].
  split; [intros H; discriminate H|].
  split; reflexivity.
Qed.

(** C6 (amended): the x-scale of a graph with a container of width other
    than 0 and a section count other than 0, and the y-scale of a graph
    with a container of height other than 5 and a stack whose least
    baseline differs from its greatest top, are undone by their inverses,
    and undo them, exactly (in exact arithmetic). *)
Theorem scales_roundtrip (degenerate : Q) (this : AreaGraph) :
  (forall sectionCount,
     xAxisSectionCount this = Some sectionCount ->
     ~ sectionCount == 0 ->
     ~ clientWidth (container this) == 0 ->
     exists scale,
       xScale this = Some scale /\
       forall v,
         D3.scaleLinear.invert degenerate scale (D3.scaleLinear.apply degenerate scale v) == v /\
         D3.scaleLinear.apply degenerate scale (D3.scaleLinear.invert degenerate scale v) == v)
  /\
  (forall lo hi,
     D3.min (stack this) stackMin = Some lo ->
     D3.max (stack this) stackMax = Some hi ->
     ~ lo == hi ->
     ~ clientHeight (container this) == 5 ->
     exists scale,
       yScale this = Some scale /\
       forall v,
         D3.scaleLinear.invert degenerate scale (D3.scaleLinear.apply degenerate scale v) == v /\
         D3.scaleLinear.apply degenerate scale (D3.scaleLinear.invert degenerate scale v) == v).
Proof.
  split.
  - intros sectionCount Hcount Hsections Hwidth.
    unfold xScale. rewrite Hcount. eexists. split; [reflexivity|].
    apply scale_roundtrip; cbn [D3.scaleLinear.domain D3.scaleLinear.range fst snd].
    + intros H. apply Hsections. now symmetry.
    + intros H. apply Hwidth. now symmetry.
  - intros lo hi Hlo Hhi Hextent Hheight.
    unfold yScale. rewrite Hlo, Hhi. eexists. split; [reflexivity|].
    apply scale_roundtrip; cbn [D3.scaleLinear.domain D3.scaleLinear.range fst snd];
      assumption.
Qed.

(** C6 on the graph built from the series [[1,2],[3,4]] in a container 100
    wide and 50 high: the x-scale at 1/2 and the y-scale at 3. *)
Lemma scales_roundtrip_witness :
  construct 0 100 50 exampleData = Some exampleGraph /\
  (exists scale,
     xScale exampleGraph = Some scale /\
     D3.scaleLinear.invert 0 scale (D3.scaleLinear.apply 0 scale (1 # 2)) == 1 # 2) /\
  (exists scale,
     yScale exampleGraph = Some scale /\
     D3.scaleLinear.invert 0 scale (D3.scaleLinear.apply 0 scale 3) == 3).
Proof.
  split; [reflexivity|].
  split.
  - destruct (proj1 (scales_roundtrip 0 exampleGraph) 1) as (scale & Hscale & Hround);
      [reflexivity | intros H; discriminate H | intros H; discriminate H |].
    exists scale. split; [exact Hscale|]. apply Hround.
  - destruct (proj2 (scales_roundtrip 0 exampleGraph) 0 6) as (scale & Hscale & Hround);
      [reflexivity | reflexivity | intros H; discriminate H | intros H; discriminate H |].
    exists scale. split; [exact Hscale|]. apply Hround.
Defined.

(** C6 as stated fails in a container of width 0: with three sections'
    worth of values the x-scale sends every x to the pixel 0, and its
    inverse sends the pixel 0 to one position, 0 with d3 4 and 1 with later
    releases, so that 2, which lies in the domain [[0, 2]], does not come
    back. *)
Lemma xScale_roundtrip_zero_width :
  xScale (newGraph 0 50 (mkData (Some [[1; 2; 3]]) (Some [NoMeta])))
  = Some (D3.scaleLinear.mk (0, 2) (0, 0)) /\
  0 <= 2 <= 2 /\
  ~ D3.scaleLinear.invert 0 (D3.scaleLinear.mk (0, 2) (0, 0))
      (D3.scaleLinear.apply 0 (D3.scaleLinear.mk (0, 2) (0, 0)) 2) == 2 /\
  ~ D3.scaleLinear.invert (1 # 2) (D3.scaleLinear.mk (0, 2) (0, 0))
      (D3.scaleLinear.apply (1 # 2) (D3.scaleLinear.mk (0, 2) (0, 0)) 2) == 2.
Proof.
  split; [reflexivity|].
  split; [split; lra|].
  split; intros H; discriminate H.
Qed.

(** ** Update lifecycle *)

Lemma mapFrom_map {A B C : Type} (callback : A -> nat -> option B)
  (f : B -> C) (g : A -> C) (array : list A) :
  forall start result,
    mapFrom start callback array = Some result ->
    (forall a i b, callback a i = Some b -> f b = g a) ->
    map f result = map g array.
Proof.
  induction array as [|a array IH]; intros start result Hrun Hcall;
    cbn [mapFrom] in Hrun.
  - now injection Hrun as <-.
  - destruct (callback a start) as [b|] eqn:Hb; [|discriminate].
    destruct (mapFrom (S start) callback array) as [bs|] eqn:Hbs; [|discriminate].
    injection Hrun as <-. cbn [map].
    now rewrite (Hcall a start b Hb), (IH (S start) bs Hbs Hcall).
Qed.

(** Whenever [updateStack] returns, the numeric values of its stack are
    those of [d3.stack] on the series: they depend on [data.areas] only. *)
Lemma updateStack_numbers (degenerate : Q) (this : AreaGraph) (fullStack : Stack) :
  updateStack degenerate this = Some fullStack ->
  exists matrix,
    areas (data this) = Some matrix /\
    numbers fullStack = D3.stack (D3.range (length matrix)) (D3.transpose matrix).
Proof.
  unfold updateStack, areaCount.
  destruct (areas (data this)) as [matrix|]; [|discriminate].
  intros Hrun. exists matrix. split; [reflexivity|].
  unfold numbers, mapArray in *.
  rewrite <- (map_id (D3.stack _ _)).
  apply (mapFrom_map _ _ _ _ _ _ Hrun).
  intros arrays areaIndex area Harea.
  rewrite <- (map_id arrays).
  apply (mapFrom_map _ _ _ _ _ _ Harea).
  intros raw index p Hp.
  destruct (xAxisSectionCount this); [|discriminate].
  destruct (xScale this); [|discriminate].
  destruct (areaMeta (data this)); [|discriminate].
  injection Hp as <-. now destruct raw.
Qed.

Lemma remove_at_most_one {A : Type} (nodes : list A) :
  (length nodes <= 1)%nat -> D3.remove nodes = [].
Proof.
  destruct nodes as [|first [|second rest]]; cbn [length D3.remove]; [reflexivity..|lia].
Qed.


Lemma render_keeps (this : AreaGraph) :
  data (outcome (render this)) = data this /\
  stack (outcome (render this)) = stack this.
Proof.
  unfold render.
  destruct (hasPoint (stack this)); [destruct (xScale this)|]; now split.
Qed.

Lemma runFrame_data (degenerate : Q) (callback : Frame) (this : AreaGraph) :
  data (outcome (runFrame degenerate callback this)) = data this.
Proof.
  destruct callback; cbn [runFrame].
  - now rewrite (proj1 (render_keeps (clear this))).
  - destruct (updateStack degenerate (clear this)) as [fullStack|]; [|reflexivity].
    now rewrite (proj1 (render_keeps (setStack fullStack (clear this)))).
Qed.

(** A container that holds at most one child, the svg of the chart, holds
    at most one child after every callback: [clear] removes an only child,
    and [render] appends one svg. *)
Lemma runFrame_children (degenerate : Q) (callback : Frame) (this : AreaGraph) :
  (length (childNodes (container this)) <= 1)%nat ->
  (length (childNodes (container (outcome (runFrame degenerate callback this)))) <= 1)%nat.
Proof.
  intros Hchildren.
  assert (Hclear : childNodes (container (clear this)) = []).
  { cbn [clear container childNodes]. now apply remove_at_most_one. }
  destruct callback; cbn [runFrame]; unfold render.
  - destruct (hasPoint (stack (clear this))); [destruct (xScale (clear this))|];
      cbn [outcome appendChart container childNodes]; rewrite Hclear;
      cbn [app length]; lia.
  - destruct (updateStack degenerate (clear this)) as [fullStack|].
    + destruct (hasPoint (stack (setStack fullStack (clear this))));
        [destruct (xScale (setStack fullStack (clear this)))|];
        cbn [outcome appendChart setStack container childNodes]; rewrite Hclear;
        cbn [app length]; lia.
    + cbn [outcome]. rewrite Hclear. cbn [length]. lia.
Qed.

(** What every scheduled callback keeps is kept by the animation frame. *)
Lemma frames_invariant (degenerate : Q) (kept : AreaGraph -> Prop) :
  (forall callback graph,
     kept graph -> kept (outcome (runFrame degenerate callback graph))) ->
  forall callbacks graph,
    kept graph ->
    kept (fold_left (fun graph callback => outcome (runFrame degenerate callback graph))
            callbacks graph).
Proof.
  intros Hstep callbacks.
  induction callbacks as [|callback callbacks IH]; intros graph Hgraph; cbn [fold_left].
  - exact Hgraph.
  - apply IH. now apply Hstep.
Qed.

Lemma animationFrame_update_data (degenerate : Q) (this : AreaGraph) (newData : Data) :
  data (animationFrame degenerate (update newData this)) = _extends (data this) newData.
Proof.
  unfold animationFrame, update, requestAnimationFrame.
  cbn [animationFrames container data stack].
  apply (frames_invariant degenerate
           (fun graph => data graph = _extends (data this) newData)).
  - intros callback graph Hgraph. now rewrite runFrame_data.
  - reflexivity.
Qed.

(** The stack that [updateStack] has built is rendered without a throw:
    the constructor throws only where [updateStack] does. *)
Lemma render_built_stack (degenerate : Q) (this : AreaGraph) (fullStack : Stack) :
  updateStack degenerate this = Some fullStack ->
  exists rendered, render (setStack fullStack this) = Returns rendered.
Proof.
  intros Hrun. unfold render. cbn [setStack stack].
  destruct (hasPoint fullStack) eqn:Hpoint; [|eauto].
  destruct (updateStack_numbers degenerate this fullStack Hrun) as (matrix & Hareas & Hraw).
  unfold xScale, xAxisSectionCount. cbn [setStack data]. rewrite Hareas.
  destruct matrix as [|first rest]; [|cbn [nth_error]; eauto].
  destruct fullStack; [discriminate Hpoint | discriminate Hraw].
Qed.

(** C7 (amended): after [update] and the animation frame that rebuilds the
    stack, a property that the update object omits has the value it had;
    an update with only [areaMeta], on an instance whose stack is current,
    leaves the baseline and the top of every stacked point as they were;
    an update with only [areas] leaves [areaMeta] as it was. *)
Theorem update_partial (degenerate : Q) (this : AreaGraph) (newData : Data) :
  (areas newData = None ->
   areas (data (animationFrame degenerate (update newData this))) = areas (data this))
  /\
  (areaMeta newData = None ->
   areaMeta (data (animationFrame degenerate (update newData this)))
   = areaMeta (data this))
  /\
  (areas newData = None ->
   current degenerate this ->
   numbers (stack (animationFrame degenerate (update newData this)))
   = numbers (stack this)).
Proof.
  split; [|split].
  - intros Hnone. rewrite animationFrame_update_data.
    unfold _extends. cbn [areas]. now rewrite Hnone.
  - intros Hnone. rewrite animationFrame_update_data.
    unfold _extends. cbn [areaMeta]. now rewrite Hnone.
  - intros Hnone (built & Hbuilt & Hsame).
    destruct (updateStack_numbers degenerate this built Hbuilt) as (matrix & Hareas & Hraw).
    unfold animationFrame, update, requestAnimationFrame.
    cbn [animationFrames container data stack].
    apply (frames_invariant degenerate
             (fun graph => areas (data graph) = Some matrix /\
                           numbers (stack graph) = numbers (stack this))).
    + intros callback graph (Hdata & Hstack).
      split; [now rewrite runFrame_data|].
      destruct callback; cbn [runFrame].
      * now rewrite (proj2 (render_keeps (clear graph))).
      * destruct (updateStack degenerate (clear graph)) as [fullStack|] eqn:Hrun;
          [|exact Hstack].
        destruct (updateStack_numbers degenerate (clear graph) fullStack Hrun)
          as (matrix' & Hareas' & Hraw').
        cbn [clear data] in Hareas'. rewrite Hdata in Hareas'. injection Hareas' as <-.
        rewrite (proj2 (render_keeps (setStack fullStack (clear graph)))).
        cbn [setStack stack]. congruence.
    + cbn [data stack]. split; [|reflexivity].
      unfold _extends. cbn [areas]. now rewrite Hnone.
Qed.

(** C7 on the example graph: new metadata only. *)
Lemma update_partial_witness :
  construct 0 100 50 exampleData = Some exampleGraph /\
  numbers (stack (animationFrame 0
                    (update (mkData None (Some [ClassNames "area--green-dark"; NoMeta]))
                            exampleGraph)))
  = numbers (stack exampleGraph).
Proof.
  split; [reflexivity|].
  apply (proj2 (proj2 (update_partial 0 exampleGraph
                         (mkData None (Some [ClassNames "area--green-dark"; NoMeta]))))).
  - reflexivity.
  - eexists. split; reflexivity.
Defined.

(** C7 as stated fails on an instance whose stack is not current: after
    the constructor and an update of the series that still waits for its
    animation frame, an update with only metadata is followed by a rebuild
    that changes the baseline and the top of the stacked points. *)
Lemma update_metadata_before_rebuild :
  construct 0 100 50 exampleData = Some exampleGraph /\
  areas (mkData None (Some [NoMeta])) = None /\
  numbers (stack (update (mkData (Some [[5; 5]]) None) exampleGraph))
  = [[(0, 1); (0, 2)]; [(1, 4); (2, 6)]] /\
  numbers (stack (animationFrame 0
                    (update (mkData None (Some [NoMeta]))
                            (update (mkData (Some [[5; 5]]) None) exampleGraph))))
  = [[(0, 5); (0, 5)]] /\
  numbers (stack (animationFrame 0
                    (update (mkData None (Some [NoMeta]))
                            (update (mkData (Some [[5; 5]]) None) exampleGraph))))
  <> numbers (stack (update (mkData (Some [[5; 5]]) None) exampleGraph)).
Proof. repeat split. discriminate. Qed.





(** * Further properties *)

(** ** Stack builder: shape, coordinates and errors *)

Lemma minLength_le_first (rows : list (list Q)) :
  forall row, (D3.minLength row rows <= length row)%nat.
Proof.
  induction rows as [|r rows IH]; intros row; cbn [D3.minLength]; lia.
Qed.

Lemma minLength_least (rows : list (list Q)) :
  forall row,
    Forall (fun s => (D3.minLength row rows <= length s)%nat) (row :: rows) /\
    exists s, In s (row :: rows) /\ length s = D3.minLength row rows.
Proof.
  induction rows as [|r rows IH]; intros row; cbn [D3.minLength].
  - split; [repeat constructor|]. exists row. split; [now left | reflexivity].
  - destruct (IH r) as (Hall & s & Hs & Hlen). split.
    + constructor; [lia|].
      eapply Forall_impl; [|exact Hall]. cbv beta. intros; lia.
    + destruct (Nat.le_ge_cases (length row) (D3.minLength r rows)) as [Hle|Hge].
      * exists row. split; [now left | lia].
      * exists s. split; [now right | lia].
Qed.

Lemma transpose_length (matrix : list (list Q)) :
  length (D3.transpose matrix)
  = match matrix with [] => 0%nat | row :: rows => D3.minLength row rows end.
Proof.
  destruct matrix as [|row rows]; [reflexivity|].
  unfold D3.transpose. now rewrite length_map, length_seq.
Qed.

Lemma offsetNoneFrom_lengths (n : nat) (series : list (list (Q * Q))) :
  forall s0,
    length s0 = n ->
    Forall (fun s => length s = n) series ->
    Forall (fun s => length s = n) (D3.offsetNoneFrom s0 series).
Proof.
  induction series as [|s1 rest IH]; intros s0 Hs0 Hall; cbn [D3.offsetNoneFrom];
    [constructor|].
  inversion Hall as [|? ? Hs1 Hrest]; subst.
  assert (Hlen : length (map (fun p : (Q * Q) * (Q * Q) =>
                                (snd (fst p), snd (snd p) + snd (fst p)))
                             (combine s0 s1)) = length s0).
  { rewrite length_map, length_combine. lia. }
  constructor; [exact Hlen|]. now apply IH.
Qed.

(** Whatever the lengths of the series, [d3.stack] on the transposed
    matrix returns one series per input series, each with as many points
    as the transposed matrix has rows. *)
Lemma d3_stack_shape (matrix : list (list Q)) :
  length (D3.stack (D3.range (length matrix)) (D3.transpose matrix)) = length matrix /\
  Forall (fun arrays => length arrays = length (D3.transpose matrix))
         (D3.stack (D3.range (length matrix)) (D3.transpose matrix)).
Proof.
  unfold D3.stack, D3.range.
  set (series := map _ (seq 0 (length matrix))).
  assert (Hcount : length series = length matrix).
  { unfold series. now rewrite length_map, length_seq. }
  assert (Hall : Forall (fun s => length s = length (D3.transpose matrix)) series).
  { unfold series. apply Forall_forall. intros s Hs.
    apply in_map_iff in Hs. destruct Hs as (k & <- & _). apply length_map. }
  destruct series as [|s0 rest]; cbn [D3.stackOffsetNone].
  - split; [exact Hcount | constructor].
  - inversion Hall as [|? ? Hs0 Hrest]; subst. split.
    + cbn [length] in *. now rewrite offsetNoneFrom_length.
    + constructor; [exact Hs0|]. now apply offsetNoneFrom_lengths.
Qed.

(** The points that [updateStack] builds, field by field. *)
Lemma updateStack_points (degenerate : Q) (this : AreaGraph)
  (first : list Q) (rest : list (list Q)) (metas : list AreaMeta) :
  areas (data this) = Some (first :: rest) ->
  areaMeta (data this) = Some metas ->
  exists fullStack,
    updateStack degenerate this = Some fullStack /\
    length fullStack
    = length (D3.stack (D3.range (length (first :: rest))) (D3.transpose (first :: rest))) /\
    forall areaIndex area,
      nth_error fullStack areaIndex = Some area ->
      exists arrays,
        nth_error (D3.stack (D3.range (length (first :: rest)))
                            (D3.transpose (first :: rest))) areaIndex
        = Some arrays /\
        length area = length arrays /\
        forall index p,
          nth_error area index = Some p ->
          exists raw,
            nth_error arrays index = Some raw /\
            p = builtPoint degenerate (clientWidth (container this))
                  (inject_Z (Z.of_nat (length first)) - 1) metas raw areaIndex index.
Proof.
  intros Hareas Hmetas.
  unfold updateStack, areaCount. rewrite Hareas.
  set (transposedStack := D3.stack _ _).
  unfold mapArray.
  apply (mapFrom_spec _
           (fun arrays areaIndex area =>
              length area = length arrays /\
              forall index p,
                nth_error area index = Some p ->
                exists raw,
                  nth_error arrays index = Some raw /\
                  p = builtPoint degenerate (clientWidth (container this))
                        (inject_Z (Z.of_nat (length first)) - 1) metas raw areaIndex index)).
  intros arrays areaIndex _. cbn [Nat.add].
  destruct (mapFrom_spec
              (fun currentValue index =>
                 sectionCount <- xAxisSectionCount this ;;
                 scale <- xScale this ;;
                 metas' <- areaMeta (data this) ;;
                 Some {| d0 := fst currentValue;
                         d1 := snd currentValue;
                         coords :=
                           Coords.mk
                             (D3.scaleLinear.invert degenerate scale
                                (if Nat.eqb index 0 then 0
                                 else clientWidth (container this) / sectionCount
                                      * inject_Z (Z.of_nat index)))
                             (snd currentValue);
                         meta := nth_error metas' areaIndex |})
              (fun raw index p =>
                 p = builtPoint degenerate (clientWidth (container this))
                       (inject_Z (Z.of_nat (length first)) - 1) metas raw areaIndex index)
              arrays 0%nat)
    as (area & Hrun & Hlen & Hpoints).
  { intros raw index _.
    unfold xScale, xAxisSectionCount. rewrite Hareas, Hmetas. cbn [nth_error].
    eexists. split; reflexivity. }
  exists area. split; [exact Hrun|]. split; [exact Hlen|].
  intros index p Hp. destruct (Hpoints index p Hp) as (raw & Hraw & Hp').
  exists raw. now split.
Qed.

Lemma sectionCount_positive (first : list Q) :
  (2 <= length first)%nat -> 0 < inject_Z (Z.of_nat (length first)) - 1.
Proof.
  intros Hlen.
  assert (H : inject_Z 1 < inject_Z (Z.of_nat (length first))).
  { rewrite <- Zlt_Qlt. lia. }
  change (inject_Z 1) with 1 in H. lra.
Qed.

(** The x-coordinate that [updateStack] computes for the section [index]
    is [index], in a container of width other than 0. *)
Lemma built_x (degenerate chartWidth sectionCount : Q) (index : nat) :
  ~ chartWidth == 0 ->
  (index = 0%nat \/ ~ sectionCount == 0) ->
  D3.scaleLinear.invert degenerate
    (D3.scaleLinear.mk (0, sectionCount) (0, chartWidth))
    (if Nat.eqb index 0 then 0
     else chartWidth / sectionCount * inject_Z (Z.of_nat index))
  == inject_Z (Z.of_nat index).
Proof.
  intros Hwidth Hsections.
  assert (Hwidth' : ~ 0 == chartWidth) by (intros H; apply Hwidth; now symmetry).
  unfold D3.scaleLinear.invert, D3.scaleLinear.bimap.
  cbn [D3.scaleLinear.domain D3.scaleLinear.range].
  destruct (Qlt_bool chartWidth 0);
    rewrite deinterpolateLinear_proper by assumption;
    unfold D3.interpolateNumber;
    (destruct index as [|index];
     [ cbn [Nat.eqb]; change (inject_Z (Z.of_nat 0)) with 0; field; lra
     | cbn [Nat.eqb]; destruct Hsections as [H|H]; [discriminate|]; field; split; lra ]).
Qed.

(** In a container of width 0 the same computation gives one value for
    every section. *)
Lemma built_x_zero_width (degenerate chartWidth sectionCount y : Q) :
  chartWidth == 0 ->
  D3.scaleLinear.invert degenerate
    (D3.scaleLinear.mk (0, sectionCount) (0, chartWidth)) y
  = D3.interpolateNumber 0 sectionCount degenerate.
Proof.
  intros Hwidth.
  unfold D3.scaleLinear.invert, D3.scaleLinear.bimap.
  cbn [D3.scaleLinear.domain D3.scaleLinear.range].
  assert (Hlt : Qlt_bool chartWidth 0 = false) by (apply Qlt_bool_false_iff; lra).
  rewrite Hlt. unfold D3.scaleLinear.deinterpolateLinear.
  assert (Heq : Qeq_bool (chartWidth - 0) 0 = true) by (apply Qeq_bool_iff; lra).
  now rewrite Heq.
Qed.

(** In a container of width other than 0 the built points carry their top
    as [coords.y] and, on the exact numbers of [updateStack], their
    section index as [coords.x]. *)
Lemma updateStack_built_coords (degenerate : Q) (this : AreaGraph)
  (matrix : list (list Q)) (metas : list AreaMeta) :
  areas (data this) = Some matrix ->
  areaMeta (data this) = Some metas ->
  ~ clientWidth (container this) == 0 ->
  exists fullStack,
    updateStack degenerate this = Some fullStack /\
    forall areaIndex area index p,
      nth_error fullStack areaIndex = Some area ->
      nth_error area index = Some p ->
      Coords.x (coords p) == inject_Z (Z.of_nat index) /\
      Coords.y (coords p) = d1 p.
Proof.
  intros Hareas Hmetas Hwidth.
  destruct matrix as [|first rest].
  - exists []. split; [unfold updateStack, areaCount; now rewrite Hareas|].
    intros [|areaIndex] area index p H; discriminate.
  - destruct (updateStack_points degenerate this first rest metas Hareas Hmetas)
      as (fullStack & Hrun & Hlen & Hpoints).
    destruct (d3_stack_shape (first :: rest)) as (_ & Hshape).
    exists fullStack. split; [exact Hrun|].
    intros areaIndex area index p Harea Hp.
    destruct (Hpoints areaIndex area Harea) as (arrays & Harrays & Hsame & Hbuilt).
    destruct (Hbuilt index p Hp) as (raw & Hraw & ->).
    split; [|reflexivity].
    unfold builtPoint. cbn [coords Coords.x].
    apply built_x; [exact Hwidth|].
    destruct index as [|index]; [now left | right].
    assert (Hindex : (S index < length arrays)%nat).
    { apply nth_error_Some. congruence. }
    rewrite Forall_forall in Hshape.
    rewrite (Hshape arrays (nth_error_In _ _ Harrays)), transpose_length in Hindex.
    pose proof (minLength_le_first rest first) as Hfirst.
    pose proof (sectionCount_positive first ltac:(lia)) as Hpos.
    intros H. rewrite H in Hpos. now apply Qlt_irrefl in Hpos.
Qed.

(** X1: in a container of width other than 0, whatever the lengths of the
    series, every point that [updateStack] builds has [coords.y] equal to
    its top, and the first point of every area, which is built with the
    x-position 0, has [coords.x] equal to 0. *)
Theorem updateStack_coords (degenerate : Q) (this : AreaGraph)
  (matrix : list (list Q)) (metas : list AreaMeta) :
  areas (data this) = Some matrix ->
  areaMeta (data this) = Some metas ->
  ~ clientWidth (container this) == 0 ->
  exists fullStack,
    updateStack degenerate this = Some fullStack /\
    forall areaIndex index p,
      stackPointAt fullStack areaIndex index = Some p ->
      Coords.y (coords p) = d1 p /\
      (index = 0%nat -> Coords.x (coords p) == 0).
Proof.
  intros Hareas Hmetas Hwidth.
  destruct (updateStack_built_coords degenerate this matrix metas Hareas Hmetas Hwidth)
    as (fullStack & Hrun & Hcoords).
  exists fullStack. split; [exact Hrun|].
  intros areaIndex index p Hp. unfold stackPointAt in Hp.
  destruct (nth_error fullStack areaIndex) as [area|] eqn:Harea; [|discriminate].
  destruct (Hcoords areaIndex area index p Harea Hp) as (Hx & Hy).
  split; [exact Hy|]. intros ->. exact Hx.
Qed.

(** X1 on the example data in a container 100 wide. *)
Lemma updateStack_coords_witness :
  exists fullStack,
    updateStack 0 (newGraph 100 50 exampleData) = Some fullStack /\
    forall areaIndex index p,
      stackPointAt fullStack areaIndex index = Some p ->
      Coords.y (coords p) = d1 p /\
      (index = 0%nat -> Coords.x (coords p) == 0).
Proof.
  apply (updateStack_coords 0 (newGraph 100 50 exampleData)
           [[1; 2]; [3; 4]] [NoMeta; ClassNames "area--blue-light"] eq_refl eq_refl).
  intros H. discriminate H.
Defined.

Lemma Sorted_adjacent {A : Type} (R : A -> A -> Prop) (l : list A) :
  (forall j a b, nth_error l j = Some a -> nth_error l (S j) = Some b -> R a b) ->
  Sorted R l.
Proof.
  induction l as [|a l IH]; intros Hadj; constructor.
  - apply IH. intros j x y Hx Hy. now apply (Hadj (S j)).
  - destruct l as [|b l]; constructor. now apply (Hadj 0%nat).
Qed.

(** X2: every area of the stack that [updateStack] builds is ascending by
    [coords.x], whatever the width of the container and the lengths of the
    series: the searches are called on sequences that meet their
    precondition. *)
Theorem updateStack_ascending (degenerate : Q) (this : AreaGraph)
  (matrix : list (list Q)) (metas : list AreaMeta) :
  areas (data this) = Some matrix ->
  areaMeta (data this) = Some metas ->
  exists fullStack,
    updateStack degenerate this = Some fullStack /\
    Forall ascending fullStack.
Proof.
  intros Hareas Hmetas.
  destruct matrix as [|first rest].
  - exists []. split; [unfold updateStack, areaCount; now rewrite Hareas | constructor].
  - destruct (updateStack_points degenerate this first rest metas Hareas Hmetas)
      as (fullStack & Hrun & Hlen & Hpoints).
    destruct (d3_stack_shape (first :: rest)) as (_ & Hshape).
    exists fullStack. split; [exact Hrun|].
    apply Forall_forall. intros area Harea.
    apply In_nth_error in Harea. destruct Harea as (areaIndex & Harea).
    destruct (Hpoints areaIndex area Harea) as (arrays & Harrays & Hsame & Hbuilt).
    apply Sorted_adjacent. intros j a b Ha Hb.
    destruct (Hbuilt j a Ha) as (rawa & _ & ->).
    destruct (Hbuilt (S j) b Hb) as (rawb & Hrawb & ->).
    unfold px, builtPoint. cbn [coords Coords.x].
    destruct (Qeq_dec (clientWidth (container this)) 0) as [Hzero|Hwidth].
    + rewrite !(built_x_zero_width _ _ _ _ Hzero). apply Qle_refl.
    + assert (Hindex : (S j < length arrays)%nat).
      { apply nth_error_Some. congruence. }
      rewrite Forall_forall in Hshape.
      rewrite (Hshape arrays (nth_error_In _ _ Harrays)), transpose_length in Hindex.
      pose proof (minLength_le_first rest first) as Hfirst.
      pose proof (sectionCount_positive first ltac:(lia)) as Hpos.
      assert (Hsections : ~ inject_Z (Z.of_nat (length first)) - 1 == 0).
      { intros H. rewrite H in Hpos. now apply Qlt_irrefl in Hpos. }
      rewrite (built_x degenerate _ _ j Hwidth) by (now right).
      rewrite (built_x degenerate _ _ (S j) Hwidth) by (now right).
      rewrite <- Zle_Qle. lia.
Qed.

(** X2 on the example data. *)
Lemma updateStack_ascending_witness :
  exists fullStack,
    updateStack 0 (newGraph 100 50 exampleData) = Some fullStack /\
    Forall ascending fullStack.
Proof.
  exact (updateStack_ascending 0 (newGraph 100 50 exampleData)
           [[1; 2]; [3; 4]] [NoMeta; ClassNames "area--blue-light"] eq_refl eq_refl).
Defined.

(** X3: series of unequal lengths are cut to the shortest one: the stack
    has one area per series, and every area has the length of a shortest
    series. *)
Theorem updateStack_truncates (degenerate : Q) (this : AreaGraph)
  (matrix : list (list Q)) (metas : list AreaMeta) :
  areas (data this) = Some matrix ->
  areaMeta (data this) = Some metas ->
  exists fullStack,
    updateStack degenerate this = Some fullStack /\
    length fullStack = length matrix /\
    forall area,
      In area fullStack ->
      (forall s, In s matrix -> (length area <= length s)%nat) /\
      (exists s, In s matrix /\ length area = length s).
Proof.
  intros Hareas Hmetas.
  destruct (updateStack_annotates degenerate this matrix metas Hareas Hmetas)
    as (fullStack & Hrun & Hlen & Hpoints).
  destruct (d3_stack_shape matrix) as (Hcount & Hshape).
  exists fullStack. split; [exact Hrun|]. split; [congruence|].
  intros area Harea.
  apply In_nth_error in Harea. destruct Harea as (areaIndex & Harea).
  destruct (Hpoints areaIndex area Harea) as (arrays & Harrays & Hsame & _).
  rewrite Forall_forall in Hshape.
  rewrite (Hshape arrays (nth_error_In _ _ Harrays)), transpose_length in Hsame.
  destruct matrix as [|first rest].
  - rewrite Hcount in Hlen. destruct fullStack; [|discriminate].
    destruct areaIndex; discriminate.
  - destruct (minLength_least rest first) as (Hall & s & Hs & Hshortest).
    rewrite Forall_forall in Hall. split.
    + intros s' Hs'. rewrite Hsame. now apply Hall.
    + exists s. split; [exact Hs | congruence].
Qed.

(** X3 on series of lengths 3, 2 and 4: three areas of two points. *)
Lemma updateStack_truncates_witness :
  exists fullStack,
    updateStack 0 (newGraph 100 50
                     (mkData (Some [[1; 2; 3]; [4; 5]; [6; 7; 8; 9]])
                             (Some [NoMeta; NoMeta; NoMeta])))
    = Some fullStack /\
    length fullStack = 3%nat /\
    Forall (fun area => length area = 2%nat) fullStack.
Proof.
  destruct (updateStack_truncates 0
              (newGraph 100 50
                 (mkData (Some [[1; 2; 3]; [4; 5]; [6; 7; 8; 9]])
                         (Some [NoMeta; NoMeta; NoMeta])))
              [[1; 2; 3]; [4; 5]; [6; 7; 8; 9]] [NoMeta; NoMeta; NoMeta]
              eq_refl eq_refl) as (fullStack & Hrun & Hlen & Hareas).
  exists fullStack. split; [exact Hrun|]. split; [exact Hlen|].
  apply Forall_forall. intros area Harea.
  destruct (Hareas area Harea) as (Hle & s & Hs & Heq).
  assert (H2 := Hle [4; 5] ltac:(cbn; auto)). cbn [length] in H2.
  destruct Hs as [<-|[<-|[<-|[]]]]; cbn [length] in Heq; lia.
Defined.

Lemma nonempty_dec (s : list Q) : {s <> []} + {~ s <> []}.
Proof.
  destruct s; [right; intros H; now apply H | left; discriminate].
Qed.

(** X4: [updateStack] throws exactly when [data.areas] is missing, or
    when [data.areaMeta] is missing and there is a point to annotate, that
    is, there is a series and no series is empty. *)
Theorem updateStack_throws (degenerate : Q) (this : AreaGraph) :
  updateStack degenerate this = None <->
  areas (data this) = None \/
  (areaMeta (data this) = None /\
   exists matrix, areas (data this) = Some matrix /\
                  matrix <> [] /\ Forall (fun s => s <> []) matrix).
Proof.
  split.
  - intros Hthrows.
    destruct (areas (data this)) as [matrix|] eqn:Hareas; [right | now left].
    destruct (areaMeta (data this)) as [metas|] eqn:Hmetas.
    { destruct (updateStack_annotates degenerate this matrix metas Hareas Hmetas)
        as (fullStack & Hrun & _). congruence. }
    split; [reflexivity|]. exists matrix. split; [reflexivity|].
    destruct matrix as [|first rest].
    { unfold updateStack, areaCount in Hthrows. rewrite Hareas in Hthrows. discriminate. }
    split; [discriminate|].
    destruct (Forall_Exists_dec (fun s : list Q => s <> []) nonempty_dec (first :: rest))
      as [Hall|Hsome]; [exact Hall | exfalso].
    apply Exists_exists in Hsome. destruct Hsome as (s & Hs & Hempty).
    assert (Hs0 : s = []) by (destruct s; [reflexivity | exfalso; apply Hempty; discriminate]).
    destruct (minLength_least rest first) as (Hleast & _).
    rewrite Forall_forall in Hleast. specialize (Hleast s Hs).
    rewrite Hs0 in Hleast. cbn [length] in Hleast.
    destruct (d3_stack_shape (first :: rest)) as (_ & Hshape).
    rewrite transpose_length in Hshape. rewrite Forall_forall in Hshape.
    unfold updateStack, areaCount, mapArray in Hthrows. rewrite Hareas in Hthrows.
    destruct (mapFrom_spec
                (fun (arrays : list (Q * Q)) (areaIndex : nat) =>
                   mapFrom 0
                     (fun (currentValue : Q * Q) (index : nat) =>
                        sectionCount <- xAxisSectionCount this ;;
                        scale <- xScale this ;;
                        metas' <- areaMeta (data this) ;;
                        Some {| d0 := fst currentValue;
                                d1 := snd currentValue;
                                coords :=
                                  Coords.mk
                                    (D3.scaleLinear.invert degenerate scale
                                       (if Nat.eqb index 0 then 0
                                        else clientWidth (container this) / sectionCount
                                             * inject_Z (Z.of_nat index)))
                                    (snd currentValue);
                                meta := nth_error metas' areaIndex |}) arrays)
                (fun _ _ (_ : Area) => True)
                (D3.stack (D3.range (length (first :: rest))) (D3.transpose (first :: rest)))
                0%nat) as (fullStack & Hrun & _).
    { intros arrays j Hj. apply nth_error_In in Hj.
      assert (Hnil : length arrays = 0%nat) by (rewrite (Hshape arrays Hj); lia).
      destruct arrays; [|discriminate]. exists []. now split. }
    congruence.
  - intros [Hareas|(Hmetas & matrix & Hareas & Hsome & Hall)].
    + unfold updateStack, areaCount. now rewrite Hareas.
    + destruct matrix as [|first rest]; [contradiction|].
      destruct (d3_stack_shape (first :: rest)) as (Hcount & Hshape).
      rewrite transpose_length in Hshape.
      destruct (minLength_least rest first) as (_ & s & Hs & Hshortest).
      rewrite Forall_forall in Hall. specialize (Hall s Hs).
      assert (Hpos : (0 < D3.minLength first rest)%nat).
      { rewrite <- Hshortest. destruct s; [contradiction | cbn [length]; lia]. }
      unfold updateStack, areaCount, mapArray. rewrite Hareas.
      destruct (D3.stack (D3.range (length (first :: rest))) (D3.transpose (first :: rest)))
        as [|arrays series]; [discriminate|].
      inversion Hshape as [|? ? Harrays _]; subst.
      destruct arrays as [|raw arrays]; [cbn [length] in Harrays; lia|].
      cbn [mapFrom]. unfold xScale, xAxisSectionCount.
      rewrite Hareas, Hmetas. reflexivity.
Qed.

(** X4 on a single series without metadata. *)
Lemma updateStack_throws_witness :
  updateStack 0 (newGraph 100 50 (mkData (Some [[1; 2]]) None)) = None.
Proof.
  apply (proj2 (updateStack_throws 0 (newGraph 100 50 (mkData (Some [[1; 2]]) None)))).
  right. split; [reflexivity|]. exists [[1; 2]].
  split; [reflexivity|]. split; [discriminate|].
  repeat constructor; discriminate.
Defined.

(** X5: the constructor returns exactly when [updateStack] returns on the
    configured data; the instance then holds that stack, no callback is
    scheduled, and the container holds one [svg] with the layer of the
    areas and the layer of the borders, each with one path per series. *)
Theorem construct_draws (degenerate width height : Q) (configData : Data)
  (graph : AreaGraph) :
  construct degenerate width height configData = Some graph <->
  exists fullStack,
    updateStack degenerate (newGraph width height configData) = Some fullStack /\
    graph = {| container :=
                 mkContainer width height
                   [[mkLayer "areas" fullStack; mkLayer "borders" fullStack]];
               data := configData;
               stack := fullStack;
               animationFrames := [] |}.
Proof.
  unfold construct, init.
  destruct (updateStack degenerate (newGraph width height configData))
    as [fullStack|] eqn:Hrun.
  - destruct (render_built_stack degenerate _ fullStack Hrun) as (rendered & Hrender).
    rewrite Hrender.
    assert (Hrendered :
              rendered
              = {| container :=
                     mkContainer width height
                       [[mkLayer "areas" fullStack; mkLayer "borders" fullStack]];
                   data := configData;
                   stack := fullStack;
                   animationFrames := [] |}).
    { revert Hrender. unfold render. cbn [setStack stack].
      destruct (hasPoint fullStack); [destruct (xScale _)|];
        intros H; try discriminate H; now injection H as <-. }
    split.
    + intros H. injection H as <-. exists fullStack. now split.
    + intros (fullStack' & Hsame & ->). injection Hsame as <-. now rewrite Hrendered.
  - split; [discriminate|]. intros (fullStack & H & _). discriminate.
Qed.

(** X5 on the example data. *)
Lemma construct_draws_witness :
  exists fullStack,
    updateStack 0 (newGraph 100 50 exampleData) = Some fullStack /\
    exampleGraph
    = {| container :=
           mkContainer 100 50 [[mkLayer "areas" fullStack; mkLayer "borders" fullStack]];
         data := exampleData;
         stack := fullStack;
         animationFrames := [] |}.
Proof.
  apply (proj1 (construct_draws 0 100 50 exampleData exampleGraph)).
  reflexivity.
Defined.

(** ** Nearest-neighbour search: any sequence, and both sides together *)

Lemma fold_pick_member (qualifies : StackPoint -> bool)
  (notBefore : StackPoint -> StackPoint -> bool) (rest : list StackPoint) :
  forall first, In (fold_left (pick qualifies notBefore) rest first) (first :: rest).
Proof.
  induction rest as [|b rest IH]; intros first; cbn [fold_left]; [now left|].
  unfold pick at 2.
  destruct (qualifies b && notBefore first b).
  - right. apply IH.
  - destruct (IH first) as [H|H]; [now left | now right; right].
Qed.

(** X6: on any sequence, sorted or not, each search throws exactly on the
    empty sequence and otherwise returns one of the points of the
    sequence. *)
Theorem findClosestPoint_member (data : Area) (referencePointX : Q) :
  (findClosestPointLeft data referencePointX = None <-> data = []) /\
  (findClosestPointRight data referencePointX = None <-> data = []) /\
  (forall p, findClosestPointLeft data referencePointX = Some p -> In p data) /\
  (forall p, findClosestPointRight data referencePointX = Some p -> In p data).
Proof.
  unfold findClosestPointLeft, findClosestPointRight, reduceRight, reduce.
  rewrite closerLeft_pick, closerRight_pick.
  split; [|split; [|split]].
  - destruct data; split; try discriminate; reflexivity.
  - destruct (rev data) as [|last rest] eqn:Hrev.
    + split; [intros _|reflexivity].
      rewrite <- (rev_involutive data), Hrev. reflexivity.
    + split; [discriminate|]. intros ->. discriminate.
  - destruct data as [|first rest]; [discriminate|].
    intros p H. injection H as <-. apply fold_pick_member.
  - destruct (rev data) as [|last rest] eqn:Hrev; [discriminate|].
    intros p H. injection H as <-. apply in_rev. rewrite Hrev.
    apply fold_pick_member.
Qed.

(** X6 on the empty sequence. *)
Lemma findClosestPoint_member_witness :
  findClosestPointLeft [] 0 = None /\ findClosestPointRight [] 0 = None.
Proof.
  split.
  - now apply (proj1 (findClosestPoint_member [] 0)).
  - now apply (proj1 (proj2 (findClosestPoint_member [] 0))).
Defined.

(** X7: on an ascending sequence with a point strictly left of the
    reference and a point at or right of it, the two searches return
    neighbours that enclose the reference: no point of the sequence lies
    strictly between them. *)
Theorem findClosestPoint_encloses (data : Area) (referencePointX : Q) :
  ascending data ->
  (exists q, In q data /\ px q < referencePointX) ->
  (exists q, In q data /\ referencePointX <= px q) ->
  exists l r,
    findClosestPointLeft data referencePointX = Some l /\
    findClosestPointRight data referencePointX = Some r /\
    px l < referencePointX /\ referencePointX <= px r /\
    forall q, In q data -> ~ (px l < px q /\ px q < px r).
Proof.
  intros Hasc Hleft Hright.
  destruct (findClosestPointLeft_sorted data referencePointX Hasc Hleft)
    as (l & Hl & _ & Hlt & Hmax).
  destruct (findClosestPointRight_sorted data referencePointX Hasc Hright)
    as (r & Hr & _ & Hle & Hmin).
  exists l, r. repeat split; try assumption.
  intros q Hq (Hlq & Hqr).
  destruct (Qlt_le_dec (px q) referencePointX) as [Hside|Hside].
  - specialize (Hmax q Hq Hside). lra.
  - specialize (Hmin q Hq Hside). lra.
Qed.

(** X7 on points at x = 0, 1, 2, 3 and the reference 3/2. *)
Lemma findClosestPoint_encloses_witness :
  exists l r,
    findClosestPointLeft (map pointAt [0; 1; 2; 3]) (3 # 2) = Some l /\
    findClosestPointRight (map pointAt [0; 1; 2; 3]) (3 # 2) = Some r /\
    px l < 3 # 2 /\ 3 # 2 <= px r /\
    forall q, In q (map pointAt [0; 1; 2; 3]) -> ~ (px l < px q /\ px q < px r).
Proof.
  apply (findClosestPoint_encloses (map pointAt [0; 1; 2; 3]) (3 # 2) ascending_example).
  - exists (pointAt 1). split; [cbn; auto|]. unfold px; cbn; lra.
  - exists (pointAt 2). split; [cbn; auto|]. unfold px; cbn; lra.
Defined.

(** ** Bisection: where it evaluates the curve *)

Lemma last_member {A : Type} (l : list A) :
  forall a d, In (last (a :: l) d) (a :: l).
Proof.
  induction l as [|b l IH]; intros a d; [now left|].
  right. exact (IH b d).
Qed.

(** X8: on an interval with [left <= right] on which the arithmetic of
    the bisection is exact, the bisection returns, it evaluates
    [pointFunc] only at positions of the interval, and the point it
    returns is the one of the last position evaluated. *)
Theorem findClosestPointVertically_within (round : Q -> Q) (n : nat)
  (left right xValue : Q) (pointFunc : Q -> Coords.t) :
  left <= right ->
  exactBisection round n left right = true ->
  exists point calls,
    (forall fuel, (length calls <= fuel)%nat ->
       findClosestPointVerticallyOn round fuel left right xValue pointFunc
       = Some (point, calls)) /\
    Forall (fun position => left <= position <= right) calls /\
    point = pointFunc (last calls 0).
Proof.
  intros Hle Hexact.
  destruct (exactBisection_run round xValue pointFunc n left right Hexact)
    as (point & calls & Hfuel & _ & Hpoint & _ & Hinside).
  exists point, calls. split; [exact Hfuel|]. split; [|exact Hpoint].
  exact (proj1 (Hinside Hle)).
Qed.

(** X8 on the interval [0, 100] in binary64. *)
Lemma findClosestPointVertically_within_witness :
  exists point calls,
    (forall fuel, (length calls <= fuel)%nat ->
       findClosestPointVerticallyOn binary64 fuel 0 100 30 (fun s => Coords.mk s 0)
       = Some (point, calls)) /\
    Forall (fun position => 0 <= position <= 100) calls /\
    point = Coords.mk (last calls 0) 0.
Proof.
  apply (findClosestPointVertically_within binary64 8 0 100 30 (fun s => Coords.mk s 0)).
  - lra.
  - vm_compute. reflexivity.
Defined.

(** X9: on an interval with [left <= right] on which the arithmetic of
    the bisection is exact: when the whole curve over [[left, right]] is
    strictly right of the target, the bisection returns the point of a
    position within 0.25 of [left]; when the whole curve is at or left of
    the target, within 0.25 of [right]: a target outside the curve is
    answered by an end of the curve. *)
Theorem findClosestPointVertically_outside (round : Q -> Q) (n : nat)
  (left right xValue : Q) (pointFunc : Q -> Coords.t) :
  left <= right ->
  exactBisection round n left right = true ->
  exists position calls,
    (forall fuel, (length calls <= fuel)%nat ->
       findClosestPointVerticallyOn round fuel left right xValue pointFunc
       = Some (pointFunc position, calls)) /\
    left <= position <= right /\
    ((forall s, left <= s <= right -> xValue < Coords.x (pointFunc s)) ->
     position - left <= 1 # 4) /\
    ((forall s, left <= s <= right -> Coords.x (pointFunc s) <= xValue) ->
     right - position <= 1 # 4).
Proof.
  intros Hle Hexact.
  destruct (exactBisection_run round xValue pointFunc n left right Hexact)
    as (point & calls & Hfuel & Hlen & Hpoint & _ & Hinside).
  destruct (Hinside Hle) as (Hwithin & Habove & Hbelow).
  exists (last calls 0), calls. rewrite <- Hpoint.
  split; [exact Hfuel|]. split; [|split; assumption].
  rewrite Forall_forall in Hwithin. apply Hwithin.
  destruct calls; [cbn [length] in Hlen; lia|].
  apply last_member.
Qed.

(** X9 on the interval [0, 100] in binary64, with a curve that lies right
    of the target 30. *)
Lemma findClosestPointVertically_outside_witness :
  exists position calls,
    (forall fuel, (length calls <= fuel)%nat ->
       findClosestPointVerticallyOn binary64 fuel 0 100 30 (fun s => Coords.mk (s + 200) 0)
       = Some (Coords.mk (position + 200) 0, calls)) /\
    position - 0 <= 1 # 4.
Proof.
  destruct (findClosestPointVertically_outside binary64 8 0 100 30
              (fun s => Coords.mk (s + 200) 0))
    as (position & calls & Hfuel & _ & Hleft & _); [lra | vm_compute; reflexivity |].
  exists position, calls. split; [exact Hfuel|].
  apply Hleft. intros s [Hs0 Hs1]. cbn [Coords.x]. lra.
Defined.

(** ** Bisection: convergence in rounded arithmetic *)

(** On a curve whose x-coordinate is strictly increasing between [first]
    and [last], the last call and every halving keep the intersection
    inside the interval. *)
Section RoundedConvergence.
Variable xValue : Q.
Variable pointFunc : Q -> Coords.t.
Variables first last intersection : Q.
Hypothesis Hincreasing : increasingOn first last pointFunc.
Hypothesis Hcrossing : Coords.x (pointFunc intersection) == xValue.

Lemma brackets_last_call (left right split : Q) :
  split == (left + right) / 2 ->
  Qabs (right - left) <= precision ->
  brackets first last intersection left right (pointFunc split) [split].
Proof.
  unfold brackets. intros Hsplit Hstop Hfirst Hlast [Hl Hr].
  rewrite half_eq in Hsplit. rewrite Qabs_pos in Hstop by lra.
  cbn [List.last]. apply Qabs_Qle_condition. unfold precision in *. lra.
Qed.

Lemma brackets_halving (left right split : Q) (point : Coords.t) (calls : list Q) :
  split == (left + right) / 2 ->
  precision < Qabs (right - left) ->
  (1 <= length calls)%nat ->
  (if Qle_bool (Coords.x (pointFunc split)) xValue
   then brackets first last intersection split right point calls
   else brackets first last intersection left split point calls) ->
  brackets first last intersection left right point (split :: calls).
Proof.
  unfold brackets. intros Hsplit Hover Hlen Hrec Hfirst Hlast [Hl Hr].
  rewrite half_eq in Hsplit.
  rewrite last_cons_nonempty by exact Hlen.
  destruct (Qle_bool (Coords.x (pointFunc split)) xValue) eqn:Hside.
  - apply Qle_bool_iff in Hside.
    apply Hrec; [lra | exact Hlast |]. split; [|exact Hr].
    destruct (Qlt_le_dec intersection split) as [Hlt|Hge]; [|exact Hge].
    assert (Hx : Coords.x (pointFunc intersection) < Coords.x (pointFunc split))
      by (apply Hincreasing; lra).
    lra.
  - assert (Hgt : xValue < Coords.x (pointFunc split)).
    { apply Qnot_le_lt. intros Hle. apply Qle_bool_iff in Hle. congruence. }
    apply Hrec; [exact Hfirst | lra |]. split; [exact Hl|].
    destruct (Qlt_le_dec split intersection) as [Hlt|Hge]; [|exact Hge].
    assert (Hx : Coords.x (pointFunc split) < Coords.x (pointFunc intersection))
      by (apply Hincreasing; lra).
    lra.
Qed.
End RoundedConvergence.

(** X22: on an interval on which the arithmetic of the bisection is
    exact, for every curve whose x-coordinate is strictly increasing with
    the position over the interval and every target met by the curve at a
    position of the interval, the bisection returns the point of a
    position within 0.5 of that intersection. *)
Theorem findClosestPointVertically_converges_rounded (round : Q -> Q) (n : nat)
  (left right xValue intersection : Q) (pointFunc : Q -> Coords.t) :
  increasingOn left right pointFunc ->
  left <= intersection <= right ->
  Coords.x (pointFunc intersection) == xValue ->
  exactBisection round n left right = true ->
  exists position calls,
    (forall fuel, (length calls <= fuel)%nat ->
       findClosestPointVerticallyOn round fuel left right xValue pointFunc
       = Some (pointFunc position, calls)) /\
    (length calls <= S n)%nat /\
    Qabs (position - intersection) <= precision.
Proof.
  intros Hincreasing Hinside Hcrossing Hexact.
  destruct (exactBisection_runs round xValue pointFunc
              (fun l r point calls =>
                 point = pointFunc (List.last calls 0) /\
                 brackets left right intersection l r point calls)
              ) with (n := n) (left := left) (right := right)
    as (point & calls & Hfuel & Hlen & Hpoint & Hbrackets).
  - intros l r split Hsplit Hstop. split; [reflexivity|].
    now apply (brackets_last_call pointFunc).
  - intros l r split point calls Hsplit Hover Hlen Hrec. split.
    + rewrite last_cons_nonempty by exact Hlen.
      destruct (Qle_bool (Coords.x (pointFunc split)) xValue); exact (proj1 Hrec).
    + apply (brackets_halving xValue pointFunc left right intersection
               Hincreasing Hcrossing l r split point calls Hsplit Hover Hlen).
      destruct (Qle_bool (Coords.x (pointFunc split)) xValue); exact (proj2 Hrec).
  - exact Hexact.
  - exists (List.last calls 0), calls. rewrite <- Hpoint.
    split; [exact Hfuel|]. split; [lia|].
    apply Hbrackets; [apply Qle_refl | apply Qle_refl | exact Hinside].
Qed.

(** X22 on [0, 100] in binary64, with the curve [s |-> (s, 0)] and the
    target 30, met at the position 30. *)
Lemma findClosestPointVertically_converges_rounded_witness :
  exactBisection binary64 8 0 100 = true /\
  exists position calls,
    (forall fuel, (length calls <= fuel)%nat ->
       findClosestPointVerticallyOn binary64 fuel 0 100 30 (fun s => Coords.mk s 0)
       = Some (Coords.mk position 0, calls)) /\
    (length calls <= 9)%nat /\
    Qabs (position - 30) <= precision.
Proof.
  assert (Hexact : exactBisection binary64 8 0 100 = true) by (vm_compute; reflexivity).
  split; [exact Hexact|].
  apply (findClosestPointVertically_converges_rounded binary64 8 0 100 30 30
           (fun s => Coords.mk s 0)).
  - intros a b _ Hab _. exact Hab.
  - split; lra.
  - reflexivity.
  - exact Hexact.
Defined.

(** ** Coordinate mapper: order and extent *)

(** A scale whose range runs downwards reverses the order of the values
    of an increasing domain. *)
Lemma scale_reverses (degenerate lo hi top bottom u v : Q) :
  lo < hi -> bottom <= top -> u <= v ->
  D3.scaleLinear.apply degenerate (D3.scaleLinear.mk (lo, hi) (top, bottom)) v
  <= D3.scaleLinear.apply degenerate (D3.scaleLinear.mk (lo, hi) (top, bottom)) u.
Proof.
  intros Hextent Hrange Huv.
  unfold D3.scaleLinear.apply, D3.scaleLinear.bimap.
  cbn [D3.scaleLinear.domain D3.scaleLinear.range].
  assert (Hlt : Qlt_bool hi lo = false) by (apply Qlt_bool_false_iff; lra).
  rewrite Hlt, !deinterpolateLinear_proper by lra.
  unfold D3.interpolateNumber, Qdiv.
  assert (Hk : 0 < / (hi - lo)) by (apply Qinv_lt_0_compat; lra).
  set (k := / (hi - lo)) in *.
  assert (Hstep : (u - lo) * k <= (v - lo) * k) by (apply Qmult_le_compat_r; lra).
  set (a := (u - lo) * k) in *. set (b := (v - lo) * k) in *.
  nra.
Qed.

Lemma nth_nonNegative (s : list Q) (j : nat) :
  Forall (fun v => 0 <= v) s -> 0 <= nth j s 0.
Proof.
  intros Hall. destruct (nth_in_or_default j s 0) as [Hin | ->]; [|lra].
  rewrite Forall_forall in Hall. now apply Hall.
Qed.

Lemma sumAt_nonNegative (j : nat) (series : list (list Q)) :
  nonNegative series -> 0 <= sumAt j series.
Proof.
  induction 1 as [|s series Hs _ IH]; cbn [sumAt]; [lra|].
  pose proof (nth_nonNegative s j Hs). lra.
Qed.

Lemma nonNegative_firstn (k : nat) (matrix : list (list Q)) :
  nonNegative matrix -> nonNegative (firstn k matrix).
Proof.
  unfold nonNegative. rewrite !Forall_forall. intros Hall s Hs.
  apply Hall. rewrite <- (firstn_skipn k matrix). apply in_or_app. now left.
Qed.

(** The values of the stack of equal-length series, for the points there
    are. *)
Lemma updateStack_values (degenerate : Q) (this : AreaGraph)
  (matrix : list (list Q)) (metas : list AreaMeta) (m : nat) (fullStack : Stack) :
  areas (data this) = Some matrix ->
  areaMeta (data this) = Some metas ->
  equalLength m matrix ->
  updateStack degenerate this = Some fullStack ->
  length fullStack = length matrix /\
  forall areaIndex area,
    nth_error fullStack areaIndex = Some area ->
    length area = m /\
    forall index p,
      nth_error area index = Some p ->
      d0 p == sumAt index (firstn areaIndex matrix) /\
      d1 p == d0 p + nth index (nth areaIndex matrix []) 0 /\
      meta p = nth_error metas areaIndex.
Proof.
  intros Hareas Hmetas Hequal Hrun.
  destruct (updateStack_annotates degenerate this matrix metas Hareas Hmetas)
    as (fullStack' & Hrun' & Hlen & Hpoints).
  rewrite Hrun in Hrun'. injection Hrun' as <-.
  destruct (d3_stack_spec m matrix Hequal) as (Hrawlen & Hraw).
  split; [congruence|].
  intros areaIndex area Harea.
  destruct (Hpoints areaIndex area Harea) as (arrays & Harrays & Hsame & Hann).
  destruct (Hraw areaIndex arrays Harrays) as (Hm & Hvalues).
  split; [congruence|].
  intros index p Hp.
  destruct (Hann index p Hp) as (raw & Hrawp & Hd0 & Hd1 & _ & Hmeta).
  destruct (Hvalues index raw Hrawp) as (Hlow & Hup).
  rewrite Hd0, Hd1. now repeat split.
Qed.

(** On series without negative values the baseline of a point is at
    least 0 and at most its top. *)
Lemma updateStack_nonNegative (degenerate : Q) (this : AreaGraph)
  (matrix : list (list Q)) (metas : list AreaMeta) (m : nat) (fullStack : Stack) :
  areas (data this) = Some matrix ->
  areaMeta (data this) = Some metas ->
  equalLength m matrix ->
  nonNegative matrix ->
  updateStack degenerate this = Some fullStack ->
  forall area p, In area fullStack -> In p area -> 0 <= d0 p /\ d0 p <= d1 p.
Proof.
  intros Hareas Hmetas Hequal Hpos Hrun area p Harea Hp.
  destruct (updateStack_values degenerate this matrix metas m fullStack
              Hareas Hmetas Hequal Hrun) as (_ & Hvalues).
  apply In_nth_error in Harea. destruct Harea as (areaIndex & Harea).
  apply In_nth_error in Hp. destruct Hp as (index & Hp).
  destruct (Hvalues areaIndex area Harea) as (_ & Hpoints).
  destruct (Hpoints index p Hp) as (Hd0 & Hd1 & _).
  pose proof (sumAt_nonNegative index _ (nonNegative_firstn areaIndex matrix Hpos)) as Hsum.
  assert (Hown : 0 <= nth index (nth areaIndex matrix []) 0).
  { apply nth_nonNegative.
    destruct (nth_in_or_default areaIndex matrix []) as [Hin | ->]; [|constructor].
    unfold nonNegative in Hpos. rewrite Forall_forall in Hpos. now apply Hpos. }
  rewrite Hd1, Hd0. split; lra.
Qed.

(** X11: for equal-length series without negative values, the domain of
    the y-scale of the stack that [updateStack] has built starts at 0. *)
Theorem yScale_starts_at_zero (degenerate : Q) (this : AreaGraph)
  (matrix : list (list Q)) (metas : list AreaMeta) (m : nat)
  (scale : D3.scaleLinear.t) :
  areas (data this) = Some matrix ->
  areaMeta (data this) = Some metas ->
  equalLength m matrix ->
  nonNegative matrix ->
  updateStack degenerate this = Some (stack this) ->
  yScale this = Some scale ->
  fst (D3.scaleLinear.domain scale) == 0.
Proof.
  intros Hareas Hmetas Hequal Hpos Hrun Hscale.
  destruct (yScale_domain this scale Hscale)
    as ((area & p & Harea & Hp & Hlo) & Hleast & _).
  pose proof (updateStack_nonNegative degenerate this matrix metas m (stack this)
                Hareas Hmetas Hequal Hpos Hrun area p Harea Hp) as (Hp0 & _).
  destruct (updateStack_values degenerate this matrix metas m (stack this)
              Hareas Hmetas Hequal Hrun) as (Hcount & Hvalues).
  apply In_nth_error in Harea. destruct Harea as (areaIndex & Harea).
  apply In_nth_error in Hp. destruct Hp as (index & Hp).
  destruct (Hvalues areaIndex area Harea) as (Hm & _).
  destruct (nth_error (stack this) 0) as [base|] eqn:Hbase.
  2: { apply nth_error_None in Hbase.
       assert (areaIndex < length (stack this))%nat
         by (apply nth_error_Some; congruence). lia. }
  destruct (Hvalues 0%nat base Hbase) as (Hbasem & Hbasepoints).
  destruct (nth_error base index) as [p0|] eqn:Hp0'.
  2: { apply nth_error_None in Hp0'.
       assert (index < length area)%nat by (apply nth_error_Some; congruence). lia. }
  destruct (Hbasepoints index p0 Hp0') as (Hzero & _).
  cbn [firstn sumAt] in Hzero.
  pose proof (Hleast base p0 (nth_error_In _ _ Hbase) (nth_error_In _ _ Hp0')) as Hle.
  rewrite Hlo in Hp0. lra.
Qed.

(** X11 on the example graph. *)
Lemma yScale_starts_at_zero_witness :
  exists scale,
    yScale exampleGraph = Some scale /\ fst (D3.scaleLinear.domain scale) == 0.
Proof.
  eexists. split; [reflexivity|].
  apply (yScale_starts_at_zero 0 exampleGraph [[1; 2]; [3; 4]]
           [NoMeta; ClassNames "area--blue-light"] 2);
    try reflexivity; repeat constructor; discriminate.
Defined.

(** X10: for equal-length series without negative values, not all 0, in a
    container at least 5 high, the y-scale draws every point of the stack
    inside the chart: the top of a point at a pixel between 5 and the
    pixel of its baseline, and the baseline at most at the pixel height. *)
Theorem yScale_within_chart (degenerate : Q) (this : AreaGraph)
  (matrix : list (list Q)) (metas : list AreaMeta) (m : nat)
  (scale : D3.scaleLinear.t) :
  areas (data this) = Some matrix ->
  areaMeta (data this) = Some metas ->
  equalLength m matrix ->
  nonNegative matrix ->
  updateStack degenerate this = Some (stack this) ->
  yScale this = Some scale ->
  ~ fst (D3.scaleLinear.domain scale) == snd (D3.scaleLinear.domain scale) ->
  5 <= clientHeight (container this) ->
  forall area p,
    In area (stack this) -> In p area ->
    5 <= D3.scaleLinear.apply degenerate scale (d1 p) /\
    D3.scaleLinear.apply degenerate scale (d1 p)
    <= D3.scaleLinear.apply degenerate scale (d0 p) /\
    D3.scaleLinear.apply degenerate scale (d0 p) <= clientHeight (container this).
Proof.
  intros Hareas Hmetas Hequal Hpos Hrun Hscale Hextent Hheight area p Harea Hp.
  destruct (yScale_domain this scale Hscale)
    as ((areaLo & pLo & HareaLo & HpLo & Hlo) & Hleast & _ & Hgreatest).
  destruct (yScale_extremes degenerate this scale Hscale) as (_ & _ & Hrange & Hends).
  destruct (Hends Hextent) as (Hbottom & Htop).
  pose proof (updateStack_nonNegative degenerate this matrix metas m (stack this)
                Hareas Hmetas Hequal Hpos Hrun area p Harea Hp) as (_ & Hp01).
  pose proof (updateStack_nonNegative degenerate this matrix metas m (stack this)
                Hareas Hmetas Hequal Hpos Hrun areaLo pLo HareaLo HpLo) as (_ & HpLo01).
  pose proof (Hleast area p Harea Hp) as Hlow.
  pose proof (Hgreatest area p Harea Hp) as Hhigh.
  pose proof (Hgreatest areaLo pLo HareaLo HpLo) as HhighLo.
  destruct scale as [[lo hi] [top bottom]].
  cbn [D3.scaleLinear.domain D3.scaleLinear.range fst snd] in *.
  injection Hrange as -> ->.
  assert (Hlt : lo < hi).
  { destruct (Qlt_le_dec lo hi) as [H|H]; [exact H|].
    exfalso. apply Hextent. apply Qle_antisym; [lra | exact H]. }
  pose proof (scale_reverses degenerate lo hi (clientHeight (container this)) 5
                (d1 p) hi Hlt Hheight Hhigh) as H1.
  pose proof (scale_reverses degenerate lo hi (clientHeight (container this)) 5
                (d0 p) (d1 p) Hlt Hheight Hp01) as H2.
  pose proof (scale_reverses degenerate lo hi (clientHeight (container this)) 5
                lo (d0 p) Hlt Hheight Hlow) as H3.
  rewrite Htop in H1. rewrite Hbottom in H3. now repeat split.
Qed.

(** X10 on the example graph. *)
Lemma yScale_within_chart_witness :
  Forall (Forall (fun p =>
    5 <= D3.scaleLinear.apply 0 (D3.scaleLinear.mk (0, 6) (50, 5)) (d1 p) /\
    D3.scaleLinear.apply 0 (D3.scaleLinear.mk (0, 6) (50, 5)) (d1 p)
    <= D3.scaleLinear.apply 0 (D3.scaleLinear.mk (0, 6) (50, 5)) (d0 p) /\
    D3.scaleLinear.apply 0 (D3.scaleLinear.mk (0, 6) (50, 5)) (d0 p) <= 50))
    (stack exampleGraph).
Proof.
  apply Forall_forall. intros area Harea. apply Forall_forall. intros p Hp.
  revert area p Harea Hp.
  apply (yScale_within_chart 0 exampleGraph [[1; 2]; [3; 4]]
           [NoMeta; ClassNames "area--blue-light"] 2
           (D3.scaleLinear.mk (0, 6) (50, 5)));
    try reflexivity; try (repeat constructor; discriminate).
Defined.

Lemma yScale_defined (this : AreaGraph) (area : Area) (p : StackPoint) :
  In area (stack this) -> In p area -> exists scaleY, yScale this = Some scaleY.
Proof.
  intros Harea Hp. unfold yScale.
  destruct (extreme_fold_some (fun v m' => Qlt_bool v m') stackMin (stack this) None)
    as (lo & Hlo).
  { right. destruct (extreme_fold_some (fun v m' => Qlt_bool v m')
                       (fun d => Some (d0 d)) area None) as (v & Hv).
    - right. exists p, (d0 p). now split.
    - exists area, v. now split. }
  destruct (extreme_fold_some (fun v m' => Qlt_bool m' v) stackMax (stack this) None)
    as (hi & Hhi).
  { right. destruct (extreme_fold_some (fun v m' => Qlt_bool m' v)
                       (fun d => Some (d1 d)) area None) as (v & Hv).
    - right. exists p, (d1 p). now split.
    - exists area, v. now split. }
  change (D3.min (stack this) stackMin = Some lo) in Hlo.
  change (D3.max (stack this) stackMax = Some hi) in Hhi.
  rewrite Hlo, Hhi. eauto.
Qed.

(** ** Class names of the areas *)

(** X13: for equal-length series of length [m], [renderArea] gives the
    area of the series [i] the class names of the metadata entry [i] when
    [i < m], and no class name when the series are not longer than [i]:
    it reads the metadata on the point [i] of the series [i]. *)
Theorem renderArea_classNames (degenerate : Q) (this : AreaGraph)
  (matrix : list (list Q)) (metas : list AreaMeta) (m : nat) (fullStack : Stack) :
  areas (data this) = Some matrix ->
  areaMeta (data this) = Some metas ->
  equalLength m matrix ->
  updateStack degenerate this = Some fullStack ->
  forall i area,
    nth_error fullStack i = Some area ->
    ((i < m)%nat -> renderArea area i = classNamesOf (nth_error metas i)) /\
    ((m <= i)%nat -> renderArea area i = EmptyString).
Proof.
  intros Hareas Hmetas Hequal Hrun i area Harea.
  destruct (updateStack_values degenerate this matrix metas m fullStack
              Hareas Hmetas Hequal Hrun) as (_ & Hvalues).
  destruct (Hvalues i area Harea) as (Hm & Hpoints).
  unfold renderArea. split; intros Hi.
  - destruct (nth_error area i) as [p|] eqn:Hp.
    + destruct (Hpoints i p Hp) as (_ & _ & ->).
      unfold classNamesOf. now destruct (nth_error metas i) as [[|classNames]|].
    + apply nth_error_None in Hp. lia.
  - destruct (nth_error area i) as [p|] eqn:Hp; [|reflexivity].
    assert (i < length area)%nat by (apply nth_error_Some; congruence). lia.
Qed.

(** X13 on three series of length two: the third area has no class name,
    whatever its metadata entry. *)
Lemma renderArea_classNames_witness :
  exists fullStack,
    updateStack 0
      (newGraph 100 50
         (mkData (Some [[1; 2]; [3; 4]; [5; 6]])
                 (Some [ClassNames "a"; ClassNames "b"; ClassNames "c"])))
    = Some fullStack /\
    forall i area,
      nth_error fullStack i = Some area ->
      ((i < 2)%nat ->
       renderArea area i
       = classNamesOf (nth_error [ClassNames "a"; ClassNames "b"; ClassNames "c"] i)) /\
      ((2 <= i)%nat -> renderArea area i = EmptyString).
Proof.
  eexists. split; [reflexivity|].
  apply (renderArea_classNames 0
           (newGraph 100 50
              (mkData (Some [[1; 2]; [3; 4]; [5; 6]])
                      (Some [ClassNames "a"; ClassNames "b"; ClassNames "c"])))
           [[1; 2]; [3; 4]; [5; 6]] [ClassNames "a"; ClassNames "b"; ClassNames "c"] 2);
    try reflexivity.
  repeat constructor.
Defined.

(** ** Lifecycle: what an animation frame leaves *)

(** [updateStack] reads the data and the width of the container, nothing
    else of the instance. *)
Lemma updateStack_ext (degenerate : Q) (this other : AreaGraph) :
  data this = data other ->
  clientWidth (container this) = clientWidth (container other) ->
  updateStack degenerate this = updateStack degenerate other.
Proof.
  destruct this as [[width height children] thisData thisStack thisFrames].
  destruct other as [[width' height' children'] otherData otherStack otherFrames].
  cbn [data container clientWidth]. intros -> ->. reflexivity.
Qed.

Lemma runFrame_keeps (degenerate : Q) (callback : Frame) (this : AreaGraph) :
  data (outcome (runFrame degenerate callback this)) = data this /\
  clientWidth (container (outcome (runFrame degenerate callback this)))
  = clientWidth (container this) /\
  clientHeight (container (outcome (runFrame degenerate callback this)))
  = clientHeight (container this) /\
  animationFrames (outcome (runFrame degenerate callback this)) = animationFrames this.
Proof.
  destruct callback; cbn [runFrame]; unfold render.
  - destruct (hasPoint (stack (clear this))); [destruct (xScale (clear this))|];
      now repeat split.
  - destruct (updateStack degenerate (clear this)) as [fullStack|]; [|now repeat split].
    destruct (hasPoint (stack (setStack fullStack (clear this))));
      [destruct (xScale (setStack fullStack (clear this)))|]; now repeat split.
Qed.

(** What the rebuild callback leaves depends on the data, the size of the
    container and the children that [clear] leaves in it. *)
Lemma rebuild_outcome (degenerate : Q) (this : AreaGraph) :
  outcome (runFrame degenerate Rebuild this)
  = match updateStack degenerate this with
    | Some fullStack =>
        {| container :=
             mkContainer (clientWidth (container this)) (clientHeight (container this))
               (D3.remove (childNodes (container this))
                ++ [[mkLayer "areas" fullStack; mkLayer "borders" fullStack]]);
           data := data this;
           stack := fullStack;
           animationFrames := animationFrames this |}
    | None =>
        {| container :=
             mkContainer (clientWidth (container this)) (clientHeight (container this))
               (D3.remove (childNodes (container this)));
           data := data this;
           stack := stack this;
           animationFrames := animationFrames this |}
    end.
Proof.
  cbn [runFrame].
  rewrite (updateStack_ext degenerate (clear this) this) by reflexivity.
  destruct (updateStack degenerate this) as [fullStack|] eqn:Hrun; [|reflexivity].
  destruct (render_built_stack degenerate (clear this) fullStack) as (rendered & Hrender).
  { now rewrite (updateStack_ext degenerate (clear this) this). }
  rewrite Hrender. cbn [outcome]. revert Hrender. unfold render.
  cbn [setStack stack].
  destruct (hasPoint fullStack); [destruct (xScale _)|];
    intros H; try discriminate H; now injection H as <-.
Qed.

(** The state in which the last callback of the frame that follows an
    update runs. *)
Lemma animationFrame_update (degenerate : Q) (this : AreaGraph) (newData : Data) :
  exists before,
    animationFrame degenerate (update newData this)
    = outcome (runFrame degenerate Rebuild before) /\
    data before = _extends (data this) newData /\
    clientWidth (container before) = clientWidth (container this) /\
    clientHeight (container before) = clientHeight (container this) /\
    animationFrames before = [] /\
    ((length (childNodes (container this)) <= 1)%nat ->
     (length (childNodes (container before)) <= 1)%nat) /\
    (animationFrames this = [] ->
     stack before = stack this /\ childNodes (container before) = childNodes (container this)).
Proof.
  unfold animationFrame, update, requestAnimationFrame.
  cbn [animationFrames container data stack].
  rewrite fold_left_app. cbn [fold_left].
  eexists. split; [reflexivity|].
  split; [|split; [|split; [|split; [|split]]]].
  - apply (frames_invariant degenerate
             (fun graph => data graph = _extends (data this) newData));
      [|reflexivity].
    intros callback graph Hgraph.
    now rewrite (proj1 (runFrame_keeps degenerate callback graph)).
  - apply (frames_invariant degenerate
             (fun graph => clientWidth (container graph) = clientWidth (container this)));
      [|reflexivity].
    intros callback graph Hgraph.
    now rewrite (proj1 (proj2 (runFrame_keeps degenerate callback graph))).
  - apply (frames_invariant degenerate
             (fun graph => clientHeight (container graph) = clientHeight (container this)));
      [|reflexivity].
    intros callback graph Hgraph.
    now rewrite (proj1 (proj2 (proj2 (runFrame_keeps degenerate callback graph)))).
  - apply (frames_invariant degenerate (fun graph => animationFrames graph = []));
      [|reflexivity].
    intros callback graph Hgraph.
    now rewrite (proj2 (proj2 (proj2 (runFrame_keeps degenerate callback graph)))).
  - intros Hchildren.
    apply (frames_invariant degenerate
             (fun graph => (length (childNodes (container graph)) <= 1)%nat));
      [|exact Hchildren].
    intros callback graph. apply runFrame_children.
  - intros ->. cbn [fold_left]. now split.
Qed.

(** X15: an update takes effect at the next animation frame: in a
    container that holds at most one child when the update is made, and
    when [updateStack] returns on the merged data, the frame leaves the
    instance with that stack, with one [svg] in the container, its two
    layers holding one path per series, and with no callback scheduled,
    whatever callbacks were scheduled before. *)
Theorem update_takes_effect (degenerate : Q) (this : AreaGraph) (newData : Data)
  (fullStack : Stack) :
  (length (childNodes (container this)) <= 1)%nat ->
  updateStack degenerate (update newData this) = Some fullStack ->
  animationFrame degenerate (update newData this)
  = {| container :=
         mkContainer (clientWidth (container this)) (clientHeight (container this))
           [[mkLayer "areas" fullStack; mkLayer "borders" fullStack]];
       data := _extends (data this) newData;
       stack := fullStack;
       animationFrames := [] |}.
Proof.
  intros Hchildren Hrun.
  destruct (animationFrame_update degenerate this newData)
    as (before & -> & Hdata & Hwidth & Hheight & Hframes & Hkept & _).
  rewrite rebuild_outcome.
  rewrite (updateStack_ext degenerate before (update newData this)), Hrun
    by (cbn [update requestAnimationFrame data container]; assumption).
  rewrite (remove_at_most_one _ (Hkept Hchildren)).
  now rewrite Hdata, Hwidth, Hheight, Hframes.
Qed.

(** X15 on the example graph and a new series. *)
Lemma update_takes_effect_witness :
  exists fullStack,
    (length (childNodes (container exampleGraph)) <= 1)%nat /\
    numbers fullStack = [[(0, 5); (0, 5)]] /\
    animationFrame 0 (update (mkData (Some [[5; 5]]) None) exampleGraph)
    = {| container :=
           mkContainer 100 50 [[mkLayer "areas" fullStack; mkLayer "borders" fullStack]];
         data := mkData (Some [[5; 5]]) (areaMeta exampleData);
         stack := fullStack;
         animationFrames := [] |}.
Proof.
  assert (Hchildren : (length (childNodes (container exampleGraph)) <= 1)%nat).
  { unfold exampleGraph; cbn [container childNodes length]; lia. }
  eexists. split; [exact Hchildren|]. split; [|
    exact (update_takes_effect 0 exampleGraph (mkData (Some [[5; 5]]) None) _
             Hchildren eq_refl)].
  reflexivity.
Defined.

(** X16: when [updateStack] throws on the merged data, the frame that
    follows the update, on an instance with nothing else scheduled and at
    most one child in its container, leaves the container empty and the
    stack as it was: the chart is gone and the data are merged. *)
Theorem update_failure (degenerate : Q) (this : AreaGraph) (newData : Data) :
  animationFrames this = [] ->
  (length (childNodes (container this)) <= 1)%nat ->
  updateStack degenerate (update newData this) = None ->
  animationFrame degenerate (update newData this)
  = {| container :=
         mkContainer (clientWidth (container this)) (clientHeight (container this)) [];
       data := _extends (data this) newData;
       stack := stack this;
       animationFrames := [] |}.
Proof.
  intros Hnone Hchildren Hrun.
  destruct (animationFrame_update degenerate this newData)
    as (before & -> & Hdata & Hwidth & Hheight & Hframes & Hkept & Hsame).
  destruct (Hsame Hnone) as (Hstack & _).
  rewrite rebuild_outcome.
  rewrite (updateStack_ext degenerate before (update newData this)), Hrun
    by (cbn [update requestAnimationFrame data container]; assumption).
  rewrite (remove_at_most_one _ (Hkept Hchildren)).
  now rewrite Hdata, Hwidth, Hheight, Hframes, Hstack.
Qed.

(** X16 on an instance built without series and without metadata, updated
    with a series: there is a point and no metadata for it. *)
Lemma update_failure_witness :
  exists graph,
    construct 0 100 50 (mkData (Some []) None) = Some graph /\
    childNodes (container graph) = [[mkLayer "areas" []; mkLayer "borders" []]] /\
    childNodes (container (animationFrame 0 (update (mkData (Some [[1; 2]]) None) graph)))
    = [] /\
    stack (animationFrame 0 (update (mkData (Some [[1; 2]]) None) graph)) = [].
Proof.
  eexists. split; [reflexivity|]. split; [reflexivity|].
  rewrite update_failure; [split; reflexivity|reflexivity| |reflexivity].
  apply Nat.leb_le. reflexivity.
Defined.

Lemma _extends_assoc (first second third : Data) :
  _extends (_extends first second) third = _extends first (_extends second third).
Proof.
  unfold _extends. cbn [areas areaMeta].
  destruct (areas third), (areaMeta third); reflexivity.
Qed.

Lemma rebuild_twice (degenerate : Q) (this : AreaGraph) :
  (length (childNodes (container this)) <= 1)%nat ->
  outcome (runFrame degenerate Rebuild (outcome (runFrame degenerate Rebuild this)))
  = outcome (runFrame degenerate Rebuild this).
Proof.
  intros Hchildren.
  rewrite (rebuild_outcome degenerate (outcome _)), (rebuild_outcome degenerate this).
  rewrite (updateStack_ext degenerate _ this).
  - rewrite (remove_at_most_one _ Hchildren).
    destruct (updateStack degenerate this) as [fullStack|]; reflexivity.
  - destruct (updateStack degenerate this); reflexivity.
  - destruct (updateStack degenerate this); reflexivity.
Qed.

(** X17: in a container that holds at most one child, two updates before
    the animation frame leave what the single update with the merged
    object leaves: updates coalesce. *)
Theorem update_coalesces (degenerate : Q) (this : AreaGraph) (first second : Data) :
  (length (childNodes (container this)) <= 1)%nat ->
  animationFrame degenerate (update second (update first this))
  = animationFrame degenerate (update (_extends first second) this).
Proof.
  intros Hchildren.
  unfold animationFrame, update, requestAnimationFrame.
  cbn [animationFrames container data stack].
  rewrite _extends_assoc, <- app_assoc, !fold_left_app. cbn [fold_left app].
  apply rebuild_twice.
  apply (frames_invariant degenerate
           (fun graph => (length (childNodes (container graph)) <= 1)%nat));
    [|exact Hchildren].
  intros callback graph. apply runFrame_children.
Qed.

(** X17 on the example graph: new series, then new metadata. *)
Lemma update_coalesces_witness :
  (length (childNodes (container exampleGraph)) <= 1)%nat /\
  animationFrame 0 (update (mkData None (Some [NoMeta]))
                      (update (mkData (Some [[5; 5]]) None) exampleGraph))
  = animationFrame 0 (update (mkData (Some [[5; 5]]) (Some [NoMeta])) exampleGraph).
Proof.
  assert (Hchildren : (length (childNodes (container exampleGraph)) <= 1)%nat).
  { unfold exampleGraph; cbn [container childNodes length]; lia. }
  split; [exact Hchildren|].
  exact (update_coalesces 0 exampleGraph (mkData (Some [[5; 5]]) None)
           (mkData None (Some [NoMeta])) Hchildren).
Defined.

Lemma redraw_outcome (degenerate : Q) (this : AreaGraph) :
  (hasPoint (stack this) = true -> xAxisSectionCount this <> None) ->
  outcome (runFrame degenerate Redraw this)
  = {| container :=
         mkContainer (clientWidth (container this)) (clientHeight (container this))
           (D3.remove (childNodes (container this))
            ++ [[mkLayer "areas" (stack this); mkLayer "borders" (stack this)]]);
       data := data this;
       stack := stack this;
       animationFrames := animationFrames this |}.
Proof.
  intros Hscale. cbn [runFrame]. unfold render. cbn [clear stack].
  destruct (hasPoint (stack this)); [|reflexivity].
  unfold xScale.
  change (xAxisSectionCount (clear this)) with (xAxisSectionCount this).
  destruct (xAxisSectionCount this); [reflexivity|].
  exfalso. now apply Hscale.
Qed.

Lemma redraws (degenerate : Q) (width height : Q) (graphData : Data) (fullStack : Stack)
  (n : nat) :
  (hasPoint fullStack = true ->
   xAxisSectionCount (mkAreaGraph (mkContainer width height []) graphData fullStack [])
   <> None) ->
  forall children,
    (length children <= 1)%nat ->
    fold_left (fun graph callback => outcome (runFrame degenerate callback graph))
      (repeat Redraw (S n))
      (mkAreaGraph (mkContainer width height children) graphData fullStack [])
    = mkAreaGraph
        (mkContainer width height
           [[mkLayer "areas" fullStack; mkLayer "borders" fullStack]])
        graphData fullStack [].
Proof.
  intros Hscale.
  induction n as [|n IH]; intros children Hchildren.
  - cbn [repeat fold_left]. rewrite redraw_outcome by exact Hscale.
    cbn [container data stack animationFrames clientWidth clientHeight childNodes].
    now rewrite (remove_at_most_one _ Hchildren).
  - change (repeat Redraw (S (S n))) with (Redraw :: repeat Redraw (S n)).
    cbn [fold_left]. rewrite redraw_outcome by exact Hscale.
    cbn [container data stack animationFrames clientWidth clientHeight childNodes].
    apply IH. rewrite (remove_at_most_one _ Hchildren). cbn [app length]. lia.
Qed.

Lemma iter_handleResize (n : nat) (this : AreaGraph) :
  Nat.iter n handleResize this
  = {| container := container this;
       data := data this;
       stack := stack this;
       animationFrames := animationFrames this ++ repeat Redraw n |}.
Proof.
  induction n as [|n IH].
  - destruct this. cbn. now rewrite app_nil_r.
  - cbn [Nat.iter nat_rect]. change (nat_rect _ _ _ n) with (Nat.iter n handleResize this).
    rewrite IH. unfold handleResize, requestAnimationFrame.
    cbn [container data stack animationFrames].
    rewrite <- app_assoc. f_equal. f_equal.
    change [Redraw] with (repeat Redraw 1). rewrite <- repeat_app.
    now rewrite Nat.add_1_r.
Qed.

(** X18: however many resize events are handled before an animation
    frame, in a container that holds at most one child the frame leaves
    one [svg], drawn from the stack as it is: the resize callbacks
    redraw, they do not rebuild the stack, and every redraw first removes
    the svg of the redraw before it. *)
Theorem resizes_leave_one_chart (degenerate : Q) (this : AreaGraph) (n : nat) :
  animationFrames this = [] ->
  (length (childNodes (container this)) <= 1)%nat ->
  (hasPoint (stack this) = true -> xAxisSectionCount this <> None) ->
  animationFrame degenerate (Nat.iter (S n) handleResize this)
  = {| container :=
         mkContainer (clientWidth (container this)) (clientHeight (container this))
           [[mkLayer "areas" (stack this); mkLayer "borders" (stack this)]];
       data := data this;
       stack := stack this;
       animationFrames := [] |}.
Proof.
  intros Hnone Hchildren Hscale.
  rewrite iter_handleResize, Hnone. unfold animationFrame.
  cbn [animationFrames container data stack app].
  destruct this as [[width height children] graphData fullStack frames].
  cbn [container data stack clientWidth clientHeight childNodes] in *.
  apply redraws; [exact Hscale | exact Hchildren].
Qed.

(** X18 on the example graph and ten resize events. *)
Lemma resizes_leave_one_chart_witness :
  childNodes (container (animationFrame 0 (Nat.iter 10 handleResize exampleGraph)))
  = [[mkLayer "areas" (stack exampleGraph); mkLayer "borders" (stack exampleGraph)]].
Proof.
  rewrite (resizes_leave_one_chart 0 exampleGraph 9 eq_refl).
  - reflexivity.
  - unfold exampleGraph; cbn [container childNodes length]; lia.
  - intros _. discriminate.
Defined.

(** In a container that holds two children the walk of [clear] leaves the
    second: the frame that follows an update then leaves that child
    before the new svg. *)
Example clear_leaves_a_child :
  childNodes (container (clear (appendChart [] exampleGraph)))
  = [[]] /\
  length (childNodes (container
            (animationFrame 0
               (update (mkData (Some [[5; 5]]) None) (appendChart [] exampleGraph)))))
  = 2%nat.
Proof. split; reflexivity. Qed.

(** ** Extent of the y-scale *)

Lemma extreme_fold_none {A : Type} (better : Q -> Q -> bool) (valueof : A -> option Q)
  (values : list A) :
  Forall (fun a => valueof a = None) values ->
  fold_left (extreme better valueof) values None = None.
Proof.
  induction 1 as [|a values Ha _ IH]; cbn [fold_left]; [reflexivity|].
  unfold extreme at 2. now rewrite Ha.
Qed.

Lemma hasPoint_true (fullStack : Stack) :
  hasPoint fullStack = true <-> exists area p, In area fullStack /\ In p area.
Proof.
  unfold hasPoint. rewrite existsb_exists. split.
  - intros (area & Harea & Hp). destruct area as [|p area]; [discriminate|].
    exists (p :: area), p. split; [exact Harea | now left].
  - intros (area & p & Harea & Hp). exists area. split; [exact Harea|].
    destruct area; [contradiction | reflexivity].
Qed.

(** X21: the y-scale has no domain exactly when the stack has no point;
    otherwise its range is [[height, 5]], the lower bound of its domain is
    the least baseline of the points of the stack and the upper bound
    their greatest top, both reached by a point. *)
Theorem yScale_extent (this : AreaGraph) :
  (yScale this = None <-> hasPoint (stack this) = false) /\
  forall scale,
    yScale this = Some scale ->
    D3.scaleLinear.range scale = (clientHeight (container this), 5) /\
    (exists area p, In area (stack this) /\ In p area /\
                    d0 p = fst (D3.scaleLinear.domain scale)) /\
    (forall area p, In area (stack this) -> In p area ->
                    fst (D3.scaleLinear.domain scale) <= d0 p) /\
    (exists area p, In area (stack this) /\ In p area /\
                    d1 p = snd (D3.scaleLinear.domain scale)) /\
    (forall area p, In area (stack this) -> In p area ->
                    d1 p <= snd (D3.scaleLinear.domain scale)).
Proof.
  split.
  - split.
    + intros Hnone. apply not_true_is_false. intros Hpoint.
      apply hasPoint_true in Hpoint. destruct Hpoint as (area & p & Harea & Hp).
      destruct (yScale_defined this area p Harea Hp) as (scale & Hscale). congruence.
    + intros Hpoint. unfold yScale, D3.min.
      change (fold_left _ (stack this) None)
        with (fold_left (extreme (fun v m' => Qlt_bool v m') stackMin) (stack this) None).
      rewrite extreme_fold_none; [reflexivity|].
      apply Forall_forall. intros area Harea.
      destruct area as [|p area]; [reflexivity|].
      exfalso. apply not_true_iff_false in Hpoint. apply Hpoint.
      apply hasPoint_true. exists (p :: area), p. split; [exact Harea | now left].
  - intros scale Hscale. split.
    + now destruct (yScale_extremes 0 this scale Hscale) as (_ & _ & Hrange & _).
    + exact (yScale_domain this scale Hscale).
Qed.

(** X21 on an instance whose stack is still empty. *)
Lemma yScale_extent_witness :
  yScale (newGraph 100 50 exampleData) = None.
Proof.
  now apply (proj2 (proj1 (yScale_extent (newGraph 100 50 exampleData)))).
Defined.
